(** * taxe-server: the paired-session turn relay of [server.js]

    A shallow embedding of the six socket handlers of [server.js]
    ([LG], [CG], [JG], [M], [ET], [disconnect]) and of the two pieces of
    state they share: the process-wide [games] object and the [gameID] /
    [role] fields that the handlers attach to every socket object.

    Conventions of the embedding.
    - A socket object is named by a [SockId]; what the code keeps on the
      object ([socket.gameID], [socket.role]) lives in a table indexed by
      that name, so that two references to one socket alias, as in the
      source.
    - [respond(x)] and [socket.emit(...)] append to the list of messages
      the handler has put on the wire, in the order of the source.
    - A property access on [undefined] or [null] raises [TypeError]; the
      state written before the raise is kept.
    - [new Date()] and [Math.random()] are inputs of the [CG] event.
    - [socketLog] / [debugLog] only print; they are left out.
    - Arguments have the types of the JSDoc comments (names and game ids
      are strings, the difficulty an integer, the game data a blob). *)

From Stdlib Require Import ZArith String Ascii.
From stdpp Require Import base option list gmap strings fin_maps.

Local Open Scope string_scope.

(** ** Data *)

Inductive Role := master | slave.

Global Instance Role_eq_dec : EqDecision Role.
Proof. solve_decision. Defined.

Definition SockId := nat.

(** The game data is a blob that the server stores and forwards. *)
Definition GameData := list Byte.byte.

(** One property of the [games] object. *)
Record Game := {
  name : string;
  difficulty : Z;
  players_master : string;
  players_slave : option string;      (* null until somebody joins *)
  created : Z;                        (* new Date(), in ms *)
  data : GameData;
  sockets_master : SockId;
  sockets_slave : option SockId       (* null until somebody joins *)
}.

(** [socket.gameID] and [socket.role]. *)
Record Socket := {
  gameID : option string;
  role : option Role
}.

(** What the connection handler stores on a new socket. *)
Definition connected : Socket := {| gameID := None; role := None |}.

Record Server := {
  games : gmap string Game;
  sockets : gmap SockId Socket
}.

(** [var games = {}], nobody has issued a command yet. *)
Definition boot : Server := {| games := ∅; sockets := ∅ |}.

(** The fields of the socket object [socket]. *)
Definition sock (s : Server) (socket : SockId) : Socket :=
  default connected (sockets s !! socket).

(** An element of the array [LG] answers with, and the answer of [CG]. *)
Record Listing := {
  id : string;
  l_name : string;
  l_created : Z;
  l_difficulty : Z
}.

(** The argument of [respond]. *)
Inductive Resp :=
| RList (availableGames : list Listing)
| RGame (g : Listing)
| ROk                                  (* { ok: true } *)
| RErr (error : string).               (* { ok: false, error: ... } *)

(** What goes on the wire to a client. *)
Inductive Msg :=
| Ack (r : Resp)                       (* respond(r) *)
| GS                                   (* emit('GS') *)
| PP (gameData : GameData)             (* emit('PP', gameData) *)
| EG.                                  (* emit('EG') *)

Definition Out := (SockId * Msg)%type.

(** The error texts of the source, by the class of the error. *)
Definition NotFound : string := "Sorry, the Game could not be found.".
Definition NameCollision : string :=
  "Sorry, you cannot use the same nickname as your opponent.".
Definition Forbidden_M : string :=
  "Sorry, you are the master player or you have not joined a game.".
Definition Forbidden_ET : string :=
  "Sorry, you are the slave player or you have not joined a game.".

(** ** The handler monad: state, wire, exceptions *)

Inductive Exn := TypeError.

Inductive Result (A : Type) :=
| Returned (a : A) (s : Server) (o : list Out)
| Thrown (e : Exn) (s : Server) (o : list Out)
| Spinning (s : Server) (o : list Out).   (* a loop that has not exited *)
Arguments Returned {A} a s o.
Arguments Thrown {A} e s o.
Arguments Spinning {A} s o.

Definition Handler (A : Type) : Type := Server → Result A.

Definition hret {A} (a : A) : Handler A := λ s, Returned a s [].

Definition hbind {A B} (f : A → Handler B) (m : Handler A) : Handler B :=
  λ s, match m s with
       | Returned a s1 o1 =>
           match f a s1 with
           | Returned b s2 o2 => Returned b s2 (o1 ++ o2)
           | Thrown e s2 o2 => Thrown e s2 (o1 ++ o2)
           | Spinning s2 o2 => Spinning s2 (o1 ++ o2)
           end
       | Thrown e s1 o1 => Thrown e s1 o1
       | Spinning s1 o1 => Spinning s1 o1
       end.

Global Instance Handler_ret : MRet Handler := @hret.
Global Instance Handler_bind : MBind Handler := @hbind.

Definition throw {A} (e : Exn) : Handler A := λ s, Thrown e s [].
Definition spin {A} : Handler A := λ s, Spinning s [].
Definition get : Handler Server := λ s, Returned s s [].
Definition put (s : Server) : Handler unit := λ _, Returned tt s [].
Definition send (to : SockId) (m : Msg) : Handler unit :=
  λ s, Returned tt s [(to, m)].

(** ** JavaScript operations the handlers use *)

(** [games[k]] where [k] is [socket.gameID]: [null] is the key ["null"]. *)
Definition key (k : option string) : string := default "null" k.

(** [!x] on a string or null. *)
Definition falsy (k : option string) : bool :=
  match k with
  | None => true
  | Some k => bool_decide (k = EmptyString)
  end.

(** [games[k]] followed by a property access: [TypeError] on undefined. *)
Definition game_at (k : string) : Handler Game :=
  s ← get;
  match games s !! k with
  | Some g => mret g
  | None => throw TypeError
  end.

(** [games[k] = g] *)
Definition set_game (k : string) (g : Game) : Handler unit :=
  s ← get; put {| games := <[k := g]> (games s); sockets := sockets s |}.

(** [delete games[k]] *)
Definition delete_game (k : string) : Handler unit :=
  s ← get; put {| games := delete k (games s); sockets := sockets s |}.

(** [socket.gameID = k; socket.role = r] *)
Definition set_sock (socket : SockId) (k : option string) (r : option Role)
  : Handler unit :=
  s ← get;
  put {| games := games s;
         sockets := <[socket := {| gameID := k; role := r |}]> (sockets s) |}.

Definition respond (socket : SockId) (r : Resp) : Handler unit :=
  send socket (Ack r).

Definition emit (socket : SockId) (m : Msg) : Handler unit := send socket m.

(** [s.slice(start)] of ECMAScript, without the [end] argument. *)
Definition slice (s : string) (start : Z) : string :=
  let len := Z.of_nat (String.length s) in
  let from := if (start <? 0)%Z then Z.max (len + start) 0
              else Z.min start len in
  String.substring (Z.to_nat from) (Z.to_nat (len - from)) s.

Definition with_data (g : Game) (gameData : GameData) : Game :=
  {| name := name g; difficulty := difficulty g;
     players_master := players_master g; players_slave := players_slave g;
     created := created g; data := gameData;
     sockets_master := sockets_master g; sockets_slave := sockets_slave g |}.

Definition with_slave (g : Game) (playerName : string) (socket : SockId)
  : Game :=
  {| name := name g; difficulty := difficulty g;
     players_master := players_master g; players_slave := Some playerName;
     created := created g; data := data g;
     sockets_master := sockets_master g; sockets_slave := Some socket |}.

(** ** The handlers *)

(** The body of the [for (code in games)] loop of [LG]. *)
Definition available (entry : string * Game) : option Listing :=
  let '(code, g) := entry in
  match players_slave g with
  | Some _ => None                                   (* continue *)
  | None => Some {| id := code; l_name := name g;
                    l_created := created g; l_difficulty := difficulty g |}
  end.

(** The array [LG] answers with.  The loop visits the properties in the
    enumeration order of the object; the model keeps the entries, not
    their order. *)
Definition availableGames (gs : gmap string Game) : list Listing :=
  omap available (map_to_list gs).

Definition on_LG (socket : SockId) : Handler unit :=
  s ← get;
  respond socket (RList (availableGames (games s))).

(** The [do ... while (games.hasOwnProperty(gameID))] loop of [CG];
    [draws] are the successive values of
    [Math.random().toString(36).substring(2, 7)]. *)
Fixpoint do_while (gs : gmap string Game) (draws : list string)
  : option string :=
  match draws with
  | [] => None
  | gameID :: draws =>
      if decide (is_Some (gs !! gameID)) then do_while gs draws
      else Some gameID
  end.

Definition gameName (playerName : string) : string :=
  if negb (String.eqb (slice playerName (-1)) "s")
  then playerName +:+ "'s Game"
  else playerName +:+ "' Game".

Definition on_CG (socket : SockId) (playerName : string) (difficulty : Z)
    (gameData : GameData) (draws : list string) (now now' : Z)
  : Handler unit :=
  s ← get;
  match do_while (games s) draws with
  | None => spin
  | Some gameID =>
      let gameName := gameName playerName in
      set_game gameID
        {| name := gameName; difficulty := difficulty;
           players_master := playerName; players_slave := None;
           created := now; data := gameData;
           sockets_master := socket; sockets_slave := None |};;
      set_sock socket (Some gameID) (Some master);;
      respond socket (RGame {| id := gameID; l_name := gameName;
                               l_created := now';
                               l_difficulty := difficulty |})
  end.

Definition on_JG (socket : SockId) (gameID playerName : string)
  : Handler unit :=
  s ← get;
  match games s !! gameID with
  | None => respond socket (RErr NotFound)
  | Some g =>
      if decide (players_master g = playerName)
      then respond socket (RErr NameCollision)
      else
        set_game gameID (with_slave g playerName socket);;
        set_sock socket (Some gameID) (Some slave);;
        respond socket ROk;;
        g ← game_at gameID;
        emit (sockets_master g) GS;;
        g ← game_at gameID;
        match sockets_slave g with
        | Some joiner => emit joiner (PP (data g))
        | None => throw TypeError
        end
  end.

Definition on_M (socket : SockId) (gameData : GameData) : Handler unit :=
  s ← get;
  if decide (role (sock s socket) ≠ Some slave)
  then respond socket (RErr Forbidden_M)
  else
    let gameID := key (gameID (sock s socket)) in
    g ← game_at gameID;
    set_game gameID (with_data g gameData);;
    respond socket ROk;;
    g ← game_at gameID;
    emit (sockets_master g) (PP (data g)).

Definition on_ET (socket : SockId) (gameData : GameData) : Handler unit :=
  s ← get;
  if decide (role (sock s socket) ≠ Some master)
  then respond socket (RErr Forbidden_ET)
  else
    let gameID := key (gameID (sock s socket)) in
    g ← game_at gameID;
    set_game gameID (with_data g gameData);;
    respond socket ROk;;
    g ← game_at gameID;
    match sockets_slave g with
    | Some joiner => emit joiner (PP (data g))
    | None => throw TypeError
    end.

Definition on_disconnect (socket : SockId) : Handler unit :=
  s ← get;
  if falsy (gameID (sock s socket)) then mret tt
  else
    let gameID := key (gameID (sock s socket)) in
    opponent ←
      (if decide (role (sock s socket) = Some master)
       then g ← game_at gameID; mret (sockets_slave g)
       else g ← game_at gameID; mret (Some (sockets_master g)));
    match opponent with
    | Some opponent => emit opponent EG;; set_sock opponent None None
    | None => mret tt
    end;;
    delete_game gameID.

(** ** Events and runs *)

Inductive Event :=
| LG
| CG (playerName : string) (difficulty : Z) (gameData : GameData)
     (draws : list string) (now now' : Z)
| JG (gameID playerName : string)
| M (gameData : GameData)
| ET (gameData : GameData)
| disconnect.

Definition handle (socket : SockId) (e : Event) : Handler unit :=
  match e with
  | LG => on_LG socket
  | CG playerName difficulty gameData draws now now' =>
      on_CG socket playerName difficulty gameData draws now now'
  | JG gameID playerName => on_JG socket gameID playerName
  | M gameData => on_M socket gameData
  | ET gameData => on_ET socket gameData
  | disconnect => on_disconnect socket
  end.

(** The events are handled one after the other; an exception that no
    handler catches ends the run. *)
Fixpoint run (tr : list (SockId * Event)) : Handler unit :=
  match tr with
  | [] => mret tt
  | (socket, e) :: tr => handle socket e;; run tr
  end.

Definition wire {A} (r : Result A) : list Out :=
  match r with
  | Returned _ _ o | Thrown _ _ o | Spinning _ o => o
  end.

Definition state {A} (r : Result A) : Server :=
  match r with
  | Returned _ s _ | Thrown _ s _ | Spinning s _ => s
  end.

Definition returns {A} (r : Result A) : bool :=
  match r with Returned _ _ _ => true | _ => false end.

Definition throws {A} (r : Result A) : bool :=
  match r with Thrown _ _ _ => true | _ => false end.

(** The states the server can be in: any number of events handled from
    [boot].  The state a handler leaves when it raises is kept as well,
    for an embedder that catches the exception and carries on. *)
Inductive reachable : Server → Prop :=
| reachable_boot : reachable boot
| reachable_step s socket e :
    reachable s → reachable (state (handle socket e s)).

(** The ids that [CG] answered with, in the order of the wire. *)
Definition created_ids (o : list Out) : list string :=
  omap (λ m, match m with
             | (_, Ack (RGame l)) => Some (id l)
             | _ => None
             end) o.

Definition is_disconnect (e : Event) : bool :=
  match e with disconnect => true | _ => false end.

Definition is_create (e : Event) : bool :=
  match e with CG _ _ _ _ _ _ => true | _ => false end.

(** The opponent [disconnect] picks: the slave socket when the caller's
    role is master, the master socket for any other role. *)
Definition opponent_of (r : option Role) (g : Game) : option SockId :=
  if decide (r = Some master) then sockets_slave g
  else Some (sockets_master g).

(** ** Sample runs *)

Definition d0 : GameData := [Byte.x00].
Definition d1 : GameData := [Byte.x01].

(** Socket 1 has created a game. *)
Definition ex_created : Server :=
  state (run [(1, CG "Chris" 2 d0 ["k3v9q"] 10 11)] boot).

(** Socket 2 has joined it. *)
Definition ex_joined : Server :=
  state (run [(1, CG "Chris" 2 d0 ["k3v9q"] 10 11);
              (2, JG "k3v9q" "Bob")] boot).

(** Socket 3 has joined it as well and has left again. *)
Definition ex_stale : Server :=
  state (run [(1, CG "Chris" 2 d0 ["k3v9q"] 10 11);
              (2, JG "k3v9q" "Bob");
              (3, JG "k3v9q" "Eve");
              (3, disconnect)] boot).

(** What a handler other than [disconnect] does to the keys of [games]:
    it removes none, the codes it puts on the wire were not keys and are
    keys afterwards, and it creates one code if it is a [CG] that
    returns and none otherwise. *)
Definition step_keys (s : Server) (e : Event) (r : Result unit) : Prop :=
  (∀ k, is_Some (games s !! k) → is_Some (games (state r) !! k))
  ∧ (∀ c, c ∈ created_ids (wire r) →
          games s !! c = None ∧ is_Some (games (state r) !! c))
  ∧ NoDup (created_ids (wire r))
  ∧ (returns r = true →
     length (created_ids (wire r)) = (if is_create e then 1 else 0)).

(** ** Properties of states *)

(** The slave's name and the slave's socket are set or null together. *)
Definition joiner_consistent (s : Server) : Prop :=
  ∀ code g, games s !! code = Some g →
            (players_slave g = None ↔ sockets_slave g = None).

(** Strict alternation, in its first consequence: once a socket has
    joined a game, an [ET] of the master socket of that game is not
    accepted before the slave has moved. *)
Definition alternation_as_stated : Prop :=
  ∀ s joiner gameID playerName s' o g gameData,
    reachable s →
    handle joiner (JG gameID playerName) s = Returned tt s' o →
    (joiner, Ack ROk) ∈ o →
    games s' !! gameID = Some g →
    (sockets_master g, Ack ROk) ∉
      wire (handle (sockets_master g) (ET gameData) s').

(** ** Further notions used beyond the claims *)

(** The answers among the messages on the wire, with their addressee. *)
Definition acks (o : list Out) : list (SockId * Resp) :=
  omap (λ m, match m with
             | (to, Ack r) => Some (to, r)
             | _ => None
             end) o.

(** Every way in which a handler changes the state, read off the
    assignments of the six handlers: no change; [CG] adds a game under a
    code that was free and marks the caller as its master; [JG] records
    the caller as the slave of a game; [M] and [ET] replace the data of
    the caller's game; [disconnect] resets the opponent and deletes the
    caller's game.  [handle_effect] shows that there is no other. *)
Inductive effect (s : Server) (socket : SockId) : Event → Server → Prop :=
| effect_none e : effect s socket e s
| effect_create playerName difficulty gameData draws now now' code :
    games s !! code = None →
    effect s socket (CG playerName difficulty gameData draws now now')
      {| games :=
           <[code := {| name := gameName playerName;
                        difficulty := difficulty;
                        players_master := playerName; players_slave := None;
                        created := now; data := gameData;
                        sockets_master := socket; sockets_slave := None |}]>
             (games s);
         sockets := <[socket := {| gameID := Some code;
                                   role := Some master |}]> (sockets s) |}
| effect_join gameID playerName g :
    games s !! gameID = Some g → players_master g ≠ playerName →
    effect s socket (JG gameID playerName)
      {| games := <[gameID := with_slave g playerName socket]> (games s);
         sockets := <[socket := {| gameID := Some gameID;
                                   role := Some slave |}]> (sockets s) |}
| effect_move gameData g :
    role (sock s socket) = Some slave →
    games s !! key (gameID (sock s socket)) = Some g →
    effect s socket (M gameData)
      {| games := <[key (gameID (sock s socket)) := with_data g gameData]>
                    (games s);
         sockets := sockets s |}
| effect_endTurn gameData g :
    role (sock s socket) = Some master →
    games s !! key (gameID (sock s socket)) = Some g →
    effect s socket (ET gameData)
      {| games := <[key (gameID (sock s socket)) := with_data g gameData]>
                    (games s);
         sockets := sockets s |}
| effect_leave g :
    falsy (gameID (sock s socket)) = false →
    games s !! key (gameID (sock s socket)) = Some g →
    effect s socket disconnect
      {| games := delete (key (gameID (sock s socket))) (games s);
         sockets := match opponent_of (role (sock s socket)) g with
                    | Some opponent => <[opponent := connected]> (sockets s)
                    | None => sockets s
                    end |}.

(** The states of a server together with the sockets that have
    disconnected: the transport gives every connection a socket of its
    own, and a socket that has disconnected sends nothing more. *)
Inductive live : Server → gset SockId → Prop :=
| live_boot : live boot ∅
| live_step s gone socket e :
    live s gone → socket ∉ gone →
    live (state (handle socket e s))
         (if is_disconnect e then {[socket]} ∪ gone else gone).

(** A socket whose role is master holds the code of a registered game
    whose master socket it is. *)
Definition master_bound (s : Server) (socket : SockId) : Prop :=
  role (sock s socket) = Some master →
  ∃ code g, gameID (sock s socket) = Some code
            ∧ games s !! code = Some g ∧ sockets_master g = socket.

(** What [CG] and [JG] establish for a game and no handler undoes. *)
Definition game_wf (g : Game) : Prop :=
  name g = gameName (players_master g)
  ∧ players_slave g ≠ Some (players_master g).

(** * Proofs *)

(** ** Unfolding the monad *)

Ltac unmonad :=
  unfold respond, emit, send, set_game, delete_game, set_sock, game_at,
    throw, spin, get, put, mbind, mret, Handler_bind, Handler_ret,
    hbind, hret in *.

Ltac handler := unfold handle, on_LG, on_CG, on_JG, on_M, on_ET,
                  on_disconnect in *; unmonad; simpl in *.

(** Closes a goal from a membership in a wire that cannot hold. *)
Ltac wire_mem :=
  repeat match goal with
  | H : _ ∈ [] |- _ => by apply not_elem_of_nil in H
  | H : _ ∈ _ :: _ |- _ =>
      apply elem_of_cons in H as [H|H]; [try discriminate H |]
  end.

(** ** [slice] and the name of a game *)

Section Names.

Lemma substring_past (q r : string) (n : nat) :
  String.substring (String.length q) n (q +:+ r) = String.substring 0 n r.
Proof. induction q as [|c q IH]; simpl; [done | apply IH]. Qed.

Lemma length_snoc (q : string) (c : ascii) :
  String.length (q +:+ String c EmptyString) = S (String.length q).
Proof. induction q as [|a q IH]; simpl; [done | by rewrite IH]. Qed.

Lemma slice_last_snoc (q : string) (c : ascii) :
  slice (q +:+ String c EmptyString) (-1) = String c EmptyString.
Proof.
  unfold slice. rewrite length_snoc.
  change (-1 <? 0)%Z with true. cbv iota.
  set (len := String.length q).
  replace (Z.to_nat (Z.max (Z.of_nat (S len) + -1) 0)) with len by lia.
  replace (Z.to_nat (Z.of_nat (S len) - Z.max (Z.of_nat (S len) + -1) 0))
    with 1 by lia.
  subst len. by rewrite substring_past.
Qed.

Lemma slice_last_empty : slice EmptyString (-1) = EmptyString.
Proof. reflexivity. Qed.

Lemma string_snoc_cases (p : string) :
  p = EmptyString ∨ ∃ q c, p = q +:+ String c EmptyString.
Proof.
  induction p as [|a p IH]; [by left | right].
  destruct IH as [-> | (q & c & ->)].
  - by exists EmptyString, a.
  - by exists (String a q), c.
Qed.

Lemma gameName_s (q : string) :
  gameName (q +:+ "s") = (q +:+ "s") +:+ "' Game".
Proof. unfold gameName. by rewrite slice_last_snoc. Qed.

Lemma gameName_other (p : string) :
  (¬ ∃ q, p = q +:+ "s") → gameName p = p +:+ "'s Game".
Proof.
  intros Hno. unfold gameName.
  destruct (string_snoc_cases p) as [-> | (q & c & ->)]; [done |].
  rewrite slice_last_snoc.
  destruct (String.eqb_spec (String c EmptyString) "s") as [Heq | Hne];
    [| done].
  exfalso. apply Hno. exists q. congruence.
Qed.

End Names.

(** ** [CG] *)

Lemma do_while_fresh (gs : gmap string Game) (draws : list string) code :
  do_while gs draws = Some code → gs !! code = None.
Proof.
  induction draws as [|c draws IH]; simpl; [done |].
  case_decide as Hc; [done |]. intros [= <-].
  by apply eq_None_not_Some.
Qed.

(** The loop exits as soon as a draw is not a property of [games]. *)
Lemma do_while_total (gs : gmap string Game) (draws : list string) c :
  c ∈ draws → gs !! c = None → is_Some (do_while gs draws).
Proof.
  intros Hin Hc. induction draws as [|c' draws IH]; simpl.
  - by apply not_elem_of_nil in Hin.
  - case_decide as Hc'; [| by eexists].
    apply elem_of_cons in Hin as [->|Hin]; [| by apply IH].
    rewrite Hc in Hc'. by destruct Hc'.
Qed.

Lemma on_CG_returns s socket playerName difficulty gameData draws now now'
    code :
  do_while (games s) draws = Some code →
  handle socket (CG playerName difficulty gameData draws now now') s =
  Returned tt
    {| games :=
         <[code := {| name := gameName playerName; difficulty := difficulty;
                      players_master := playerName; players_slave := None;
                      created := now; data := gameData;
                      sockets_master := socket; sockets_slave := None |}]>
           (games s);
       sockets := <[socket := {| gameID := Some code; role := Some master |}]>
                    (sockets s) |}
    [(socket, Ack (RGame {| id := code; l_name := gameName playerName;
                            l_created := now';
                            l_difficulty := difficulty |}))].
Proof. intros H. handler. by rewrite H. Qed.

(** C9. [CG] names the game after the player: the player's name followed
    by ["' Game"] when the name ends in the character s, and by
    ["'s Game"] otherwise; the name is stored in the game and sent back.
    Jack gets "Jack's Game" and Chris gets "Chris' Game". *)
Theorem create_displayName s socket playerName difficulty gameData draws
    now now' c :
  c ∈ draws → games s !! c = None →
  ∃ code s' g,
    do_while (games s) draws = Some code
    ∧ handle socket (CG playerName difficulty gameData draws now now') s =
      Returned tt s'
        [(socket, Ack (RGame {| id := code; l_name := name g;
                                l_created := now';
                                l_difficulty := difficulty |}))]
    ∧ games s' !! code = Some g
    ∧ name g = gameName playerName
    ∧ ((∃ q, playerName = q +:+ "s") → name g = playerName +:+ "' Game")
    ∧ ((¬ ∃ q, playerName = q +:+ "s") → name g = playerName +:+ "'s Game")
    ∧ gameName "Jack" = "Jack's Game"
    ∧ gameName "Chris" = "Chris' Game".
Proof.
  intros Hin Hc.
  destruct (do_while_total _ _ _ Hin Hc) as [code H].
  rewrite (on_CG_returns _ _ _ _ _ _ _ _ _ H).
  eexists code, _,
    {| name := gameName playerName; difficulty := difficulty;
       players_master := playerName; players_slave := None;
       created := now; data := gameData;
       sockets_master := socket; sockets_slave := None |}.
  split; [done |]. split; [reflexivity |].
  split; [apply lookup_insert_eq |]. simpl.
  split; [done |]. split; [| split; [apply gameName_other | done]].
  intros [q ->]. apply gameName_s.
Qed.

Lemma create_displayName_witness :
  ∃ code s' g,
    do_while (games ex_created) ["k3v9q"; "0ab"] = Some code
    ∧ handle 2 (CG "Jack" 1 d1 ["k3v9q"; "0ab"] 20 21) ex_created =
      Returned tt s'
        [(2, Ack (RGame {| id := code; l_name := name g;
                           l_created := 21; l_difficulty := 1 |}))]
    ∧ games s' !! code = Some g
    ∧ name g = "Jack's Game".
Proof.
  destruct (create_displayName ex_created 2 "Jack" 1 d1 ["k3v9q"; "0ab"]
              20 21 "0ab")
    as (code & s' & g & H0 & H1 & H2 & H3 & _);
    [apply list_elem_of_further, list_elem_of_here | reflexivity |].
  exists code, s', g. split_and!; [exact H0 | exact H1 | exact H2 | exact H3].
Defined.

(** ** [JG] *)

Lemma on_JG_not_found s socket gameID playerName :
  games s !! gameID = None →
  handle socket (JG gameID playerName) s =
  Returned tt s [(socket, Ack (RErr NotFound))].
Proof. intros H. handler. by rewrite H. Qed.

Lemma on_JG_collision s socket gameID playerName g :
  games s !! gameID = Some g → players_master g = playerName →
  handle socket (JG gameID playerName) s =
  Returned tt s [(socket, Ack (RErr NameCollision))].
Proof. intros H Hn. handler. rewrite H. by rewrite decide_True. Qed.

Lemma on_JG_ok s socket gameID playerName g :
  games s !! gameID = Some g → players_master g ≠ playerName →
  handle socket (JG gameID playerName) s =
  Returned tt
    {| games := <[gameID := with_slave g playerName socket]> (games s);
       sockets := <[socket := {| gameID := Some gameID; role := Some slave |}]>
                    (sockets s) |}
    [(socket, Ack ROk); (sockets_master g, GS); (socket, PP (data g))].
Proof.
  intros H Hn. handler. rewrite H. rewrite decide_False by done.
  simpl. rewrite lookup_insert_eq. simpl. by rewrite lookup_insert_eq.
Qed.

(** ** [M] and [ET] *)

Lemma on_M_forbidden s socket gameData :
  role (sock s socket) ≠ Some slave →
  handle socket (M gameData) s =
  Returned tt s [(socket, Ack (RErr Forbidden_M))].
Proof. intros H. handler. by rewrite decide_True. Qed.

Lemma on_M_ok s socket gameData g :
  role (sock s socket) = Some slave →
  games s !! key (gameID (sock s socket)) = Some g →
  handle socket (M gameData) s =
  Returned tt
    {| games := <[key (gameID (sock s socket)) := with_data g gameData]>
                  (games s);
       sockets := sockets s |}
    [(socket, Ack ROk); (sockets_master g, PP gameData)].
Proof.
  intros H Hg. handler. rewrite decide_False by (by intros []).
  rewrite Hg. simpl. by rewrite lookup_insert_eq.
Qed.

Lemma on_M_throws s socket gameData :
  role (sock s socket) = Some slave →
  games s !! key (gameID (sock s socket)) = None →
  handle socket (M gameData) s = Thrown TypeError s [].
Proof.
  intros H Hg. handler. rewrite decide_False by (by intros []).
  by rewrite Hg.
Qed.

Lemma on_ET_forbidden s socket gameData :
  role (sock s socket) ≠ Some master →
  handle socket (ET gameData) s =
  Returned tt s [(socket, Ack (RErr Forbidden_ET))].
Proof. intros H. handler. by rewrite decide_True. Qed.

Lemma on_ET_ok s socket gameData g joiner :
  role (sock s socket) = Some master →
  games s !! key (gameID (sock s socket)) = Some g →
  sockets_slave g = Some joiner →
  handle socket (ET gameData) s =
  Returned tt
    {| games := <[key (gameID (sock s socket)) := with_data g gameData]>
                  (games s);
       sockets := sockets s |}
    [(socket, Ack ROk); (joiner, PP gameData)].
Proof.
  intros H Hg Hj. handler. rewrite decide_False by (by intros []).
  rewrite Hg. simpl. rewrite lookup_insert_eq. simpl. by rewrite Hj.
Qed.

(** [games[gameID].sockets.slave] is still [null]: the data is stored and
    the caller is answered before [.emit] raises. *)
Lemma on_ET_throws_no_joiner s socket gameData g :
  role (sock s socket) = Some master →
  games s !! key (gameID (sock s socket)) = Some g →
  sockets_slave g = None →
  handle socket (ET gameData) s =
  Thrown TypeError
    {| games := <[key (gameID (sock s socket)) := with_data g gameData]>
                  (games s);
       sockets := sockets s |}
    [(socket, Ack ROk)].
Proof.
  intros H Hg Hj. handler. rewrite decide_False by (by intros []).
  rewrite Hg. simpl. rewrite lookup_insert_eq. simpl. by rewrite Hj.
Qed.

Lemma on_ET_throws_no_game s socket gameData :
  role (sock s socket) = Some master →
  games s !! key (gameID (sock s socket)) = None →
  handle socket (ET gameData) s = Thrown TypeError s [].
Proof.
  intros H Hg. handler. rewrite decide_False by (by intros []).
  by rewrite Hg.
Qed.

(** ** [disconnect] *)

Lemma on_disconnect_lobby s socket :
  falsy (gameID (sock s socket)) = true →
  handle socket disconnect s = Returned tt s [].
Proof. intros H. handler. by rewrite H. Qed.

Lemma on_disconnect_opponent s socket g opponent :
  falsy (gameID (sock s socket)) = false →
  games s !! key (gameID (sock s socket)) = Some g →
  opponent_of (role (sock s socket)) g = Some opponent →
  handle socket disconnect s =
  Returned tt
    {| games := delete (key (gameID (sock s socket))) (games s);
       sockets := <[opponent := connected]> (sockets s) |}
    [(opponent, EG)].
Proof.
  intros Hf Hg Ho. handler. rewrite Hf. unfold opponent_of in Ho.
  case_decide; rewrite Hg; simpl; [rewrite Ho | injection Ho as <-]; done.
Qed.

Lemma on_disconnect_alone s socket g :
  falsy (gameID (sock s socket)) = false →
  games s !! key (gameID (sock s socket)) = Some g →
  opponent_of (role (sock s socket)) g = None →
  handle socket disconnect s =
  Returned tt
    {| games := delete (key (gameID (sock s socket))) (games s);
       sockets := sockets s |}
    [].
Proof.
  intros Hf Hg Ho. handler. rewrite Hf. unfold opponent_of in Ho.
  case_decide; rewrite Hg; simpl; [rewrite Ho | discriminate]; done.
Qed.

Lemma on_disconnect_throws s socket :
  falsy (gameID (sock s socket)) = false →
  games s !! key (gameID (sock s socket)) = None →
  handle socket disconnect s = Thrown TypeError s [].
Proof.
  intros Hf Hg. handler. rewrite Hf. case_decide; by rewrite Hg.
Qed.

(** * The claims *)

(** C6. [JG] answers [NotFound] exactly when the game id is not a
    property of [games], and [NameCollision] exactly when it is and the
    name given is the master's; in both cases nothing is changed.
    Otherwise the name and the socket of the caller are recorded as the
    slave's, the caller's socket gets the game id and the role slave, the
    caller is answered ok, the master socket is sent [GS] and the caller
    [PP] with the data of the game. *)
Theorem join_result s socket gameID playerName :
  let r := handle socket (JG gameID playerName) s in
  ((socket, Ack (RErr NotFound)) ∈ wire r ↔ games s !! gameID = None)
  ∧ ((socket, Ack (RErr NameCollision)) ∈ wire r ↔
       ∃ g, games s !! gameID = Some g ∧ players_master g = playerName)
  ∧ (games s !! gameID = None → r = Returned tt s [(socket, Ack (RErr NotFound))])
  ∧ (∀ g, games s !! gameID = Some g → players_master g = playerName →
       r = Returned tt s [(socket, Ack (RErr NameCollision))])
  ∧ (∀ g, games s !! gameID = Some g → players_master g ≠ playerName →
       r = Returned tt
             {| games := <[gameID := with_slave g playerName socket]> (games s);
                sockets := <[socket := {| gameID := Some gameID;
                                          role := Some slave |}]> (sockets s) |}
             [(socket, Ack ROk); (sockets_master g, GS);
              (socket, PP (data g))]
       ∧ players_slave (with_slave g playerName socket) = Some playerName
       ∧ sockets_slave (with_slave g playerName socket) = Some socket
       ∧ sock (state r) socket = {| gameID := Some gameID; role := Some slave |}).
Proof.
  intros r. subst r.
  destruct (games s !! gameID) as [g|] eqn:Hg.
  - destruct (decide (players_master g = playerName)) as [Hn|Hn].
    + rewrite (on_JG_collision _ _ _ _ _ Hg Hn). simpl.
      split_and!; try (intros; simplify_eq; done).
      * split; [intros ?; wire_mem | done].
      * split; [by exists g | intros _; apply list_elem_of_singleton; done].
    + rewrite (on_JG_ok _ _ _ _ _ Hg Hn). simpl.
      split_and!; try (intros; simplify_eq; done).
      * split; [intros ?; wire_mem | done].
      * split; [intros ?; wire_mem | intros (g' & ? & ?); simplify_eq].
      * intros g' ? _. simplify_eq. split_and!; try done.
        unfold sock. simpl. by rewrite lookup_insert_eq.
  - rewrite (on_JG_not_found _ _ _ _ Hg). simpl.
    split_and!; try (intros; simplify_eq; done).
    + split; [done | intros _; by apply list_elem_of_singleton].
    + split; [intros ?; wire_mem | intros (g' & ? & ?); simplify_eq].
Qed.

(** C10. [JG] does not look at the slave already recorded.  When the game
    has a slave socket and the name given is not the master's, the caller
    is answered ok and becomes the slave, by name and by socket; the
    socket that was the slave is not touched, so if it held the game id
    with the role slave it still does. *)
Theorem join_replaces_joiner s socket gameID playerName g old :
  games s !! gameID = Some g →
  sockets_slave g = Some old →
  players_master g ≠ playerName →
  ∃ s' g',
    handle socket (JG gameID playerName) s =
      Returned tt s'
        [(socket, Ack ROk); (sockets_master g, GS); (socket, PP (data g))]
    ∧ games s' !! gameID = Some g'
    ∧ players_slave g' = Some playerName
    ∧ sockets_slave g' = Some socket
    ∧ (old ≠ socket → sock s' old = sock s old)
    ∧ (sock s old = {| gameID := Some gameID; role := Some slave |} →
       sock s' old = {| gameID := Some gameID; role := Some slave |}).
Proof.
  intros Hg Hold Hn. rewrite (on_JG_ok _ _ _ _ _ Hg Hn).
  eexists _, (with_slave g playerName socket).
  split_and!; [reflexivity | apply lookup_insert_eq | done | done | |].
  - intros Hne. unfold sock. simpl. by rewrite lookup_insert_ne.
  - intros Hs. unfold sock in *. simpl.
    destruct (decide (socket = old)) as [->|Hne].
    + by rewrite lookup_insert_eq.
    + by rewrite lookup_insert_ne.
Qed.

Lemma join_replaces_joiner_witness :
  sock ex_joined 2 = {| gameID := Some "k3v9q"; role := Some slave |}
  ∧ ∃ s' g',
      handle 3 (JG "k3v9q" "Eve") ex_joined =
        Returned tt s' [(3, Ack ROk); (1, GS); (3, PP d0)]
      ∧ games s' !! "k3v9q" = Some g'
      ∧ players_slave g' = Some "Eve"
      ∧ sockets_slave g' = Some 3
      ∧ sock s' 2 = {| gameID := Some "k3v9q"; role := Some slave |}.
Proof.
  split; [reflexivity |].
  destruct (join_replaces_joiner ex_joined 3 "k3v9q" "Eve"
              {| name := "Chris' Game"; difficulty := 2;
                 players_master := "Chris"; players_slave := Some "Bob";
                 created := 10; data := d0;
                 sockets_master := 1; sockets_slave := Some 2 |} 2)
    as (s' & g' & H1 & H2 & H3 & H4 & _ & H6);
    [reflexivity | reflexivity | discriminate |].
  exists s', g'. split_and!; [exact H1 | exact H2 | exact H3 | exact H4 |].
  apply H6. reflexivity.
Defined.

(** C4, as the code has it.  The server keeps no record of whose turn it
    is; the role of the calling socket alone decides.  [M] is accepted
    only from a socket whose role is slave and [ET] only from a socket
    whose role is master; a call from any other socket is answered
    [Forbidden] and changes nothing, the game data included; and right
    after a successful [JG] the [M] of the socket that joined is accepted,
    stores the data and sends it to the master socket with [PP]. *)
Theorem turns_by_role s socket gameData :
  (role (sock s socket) ≠ Some slave →
   handle socket (M gameData) s =
   Returned tt s [(socket, Ack (RErr Forbidden_M))])
  ∧ (role (sock s socket) ≠ Some master →
     handle socket (ET gameData) s =
     Returned tt s [(socket, Ack (RErr Forbidden_ET))])
  ∧ ((socket, Ack ROk) ∈ wire (handle socket (M gameData) s) →
     role (sock s socket) = Some slave)
  ∧ ((socket, Ack ROk) ∈ wire (handle socket (ET gameData) s) →
     role (sock s socket) = Some master)
  ∧ (∀ gameID playerName s' o,
       handle socket (JG gameID playerName) s = Returned tt s' o →
       (socket, Ack ROk) ∈ o →
       ∃ g, games s' !! gameID = Some g
            ∧ handle socket (M gameData) s' =
              Returned tt
                {| games := <[gameID := with_data g gameData]> (games s');
                   sockets := sockets s' |}
                [(socket, Ack ROk); (sockets_master g, PP gameData)]).
Proof.
  split_and!.
  - apply on_M_forbidden.
  - apply on_ET_forbidden.
  - intros H. destruct (decide (role (sock s socket) = Some slave)) as [|Hr];
      [done |]. rewrite (on_M_forbidden _ _ _ Hr) in H. simpl in H. wire_mem.
  - intros H. destruct (decide (role (sock s socket) = Some master)) as [|Hr];
      [done |]. rewrite (on_ET_forbidden _ _ _ Hr) in H. simpl in H. wire_mem.
  - intros gameID playerName s' o Hj Hok.
    destruct (games s !! gameID) as [g|] eqn:Hg.
    + destruct (decide (players_master g = playerName)) as [Hn|Hn].
      * rewrite (on_JG_collision _ _ _ _ _ Hg Hn) in Hj.
        simplify_eq. wire_mem.
      * rewrite (on_JG_ok _ _ _ _ _ Hg Hn) in Hj. simplify_eq.
        exists (with_slave g playerName socket).
        split; [apply lookup_insert_eq |].
        match goal with |- handle _ _ ?st = _ => set (s' := st) end.
        assert (sock s' socket =
                {| gameID := Some gameID; role := Some slave |}) as Hs
          by (unfold sock; simpl; by rewrite lookup_insert_eq).
        pose proof (on_M_ok s' socket gameData
                      (with_slave g playerName socket)) as HM.
        rewrite Hs in HM. simpl in HM. apply HM; [done |].
        apply lookup_insert_eq.
    + rewrite (on_JG_not_found _ _ _ _ Hg) in Hj. simplify_eq. wire_mem.
Qed.

Lemma turns_by_role_witness :
  handle 1 (M d1) ex_joined = Returned tt ex_joined [(1, Ack (RErr Forbidden_M))]
  ∧ handle 2 (ET d1) ex_joined =
    Returned tt ex_joined [(2, Ack (RErr Forbidden_ET))]
  ∧ ∃ g, games ex_joined !! "k3v9q" = Some g
         ∧ handle 2 (M d1) ex_joined =
           Returned tt
             {| games := <["k3v9q" := with_data g d1]> (games ex_joined);
                sockets := sockets ex_joined |}
             [(2, Ack ROk); (sockets_master g, PP d1)].
Proof.
  split_and!.
  - apply (turns_by_role ex_joined 1 d1). discriminate.
  - apply (turns_by_role ex_joined 2 d1). discriminate.
  - destruct (turns_by_role ex_created 2 d1) as (_ & _ & _ & _ & H).
    apply (H "k3v9q" "Bob" ex_joined [(2, Ack ROk); (1, GS); (2, PP d0)]).
    + reflexivity.
    + apply list_elem_of_here.
Defined.

(** ** Invariants of the reachable states *)

Section Invariant.

Ltac by_cases_on_game s socket :=
  destruct (games s !! key (gameID (sock s socket))) as [g|] eqn:Hg.

Lemma joiner_consistent_insert s k g' t :
  joiner_consistent s →
  (players_slave g' = None ↔ sockets_slave g' = None) →
  joiner_consistent {| games := <[k := g']> (games s); sockets := t |}.
Proof.
  intros Hs Hg' code g H. simpl in H.
  apply lookup_insert_Some in H as [[_ <-]|[_ H]]; [done |].
  by apply (Hs code).
Qed.

Lemma joiner_consistent_delete s k t :
  joiner_consistent s →
  joiner_consistent {| games := delete k (games s); sockets := t |}.
Proof.
  intros Hs code g H. simpl in H.
  apply lookup_delete_Some in H as [_ H]. by apply (Hs code).
Qed.

Lemma handle_joiner_consistent s socket e :
  joiner_consistent s → joiner_consistent (state (handle socket e s)).
Proof.
  intros Hs. destruct e as [|playerName difficulty gameData draws now now'
                            |gameID playerName|gameData|gameData|].
  - exact Hs.
  - destruct (do_while (games s) draws) as [code|] eqn:Hd.
    + rewrite (on_CG_returns _ _ _ _ _ _ _ _ _ Hd).
      simpl. by apply joiner_consistent_insert.
    + handler. rewrite Hd. exact Hs.
  - destruct (games s !! gameID) as [g|] eqn:Hg.
    + destruct (decide (players_master g = playerName)) as [Hn|Hn].
      * by rewrite (on_JG_collision _ _ _ _ _ Hg Hn).
      * rewrite (on_JG_ok _ _ _ _ _ Hg Hn).
        simpl. by apply joiner_consistent_insert.
    + by rewrite (on_JG_not_found _ _ _ _ Hg).
  - destruct (decide (role (sock s socket) = Some slave)) as [Hr|Hr].
    + by_cases_on_game s socket.
      * rewrite (on_M_ok _ _ _ _ Hr Hg).
        simpl. apply joiner_consistent_insert; [done |]. by apply (Hs _ _ Hg).
      * by rewrite (on_M_throws _ _ _ Hr Hg).
    + by rewrite (on_M_forbidden _ _ _ Hr).
  - destruct (decide (role (sock s socket) = Some master)) as [Hr|Hr].
    + by_cases_on_game s socket.
      * destruct (sockets_slave g) as [joiner|] eqn:Hj.
        -- rewrite (on_ET_ok _ _ _ _ _ Hr Hg Hj).
           simpl. apply joiner_consistent_insert; [done |]. by apply (Hs _ _ Hg).
        -- rewrite (on_ET_throws_no_joiner _ _ _ _ Hr Hg Hj).
           simpl. apply joiner_consistent_insert; [done |]. by apply (Hs _ _ Hg).
      * by rewrite (on_ET_throws_no_game _ _ _ Hr Hg).
    + by rewrite (on_ET_forbidden _ _ _ Hr).
  - destruct (falsy (gameID (sock s socket))) eqn:Hf.
    + by rewrite (on_disconnect_lobby _ _ Hf).
    + by_cases_on_game s socket.
      * destruct (opponent_of (role (sock s socket)) g) as [o|] eqn:Ho.
        -- rewrite (on_disconnect_opponent _ _ _ _ Hf Hg Ho).
           simpl. by apply joiner_consistent_delete.
        -- rewrite (on_disconnect_alone _ _ _ Hf Hg Ho).
           simpl. by apply joiner_consistent_delete.
      * by rewrite (on_disconnect_throws _ _ Hf Hg).
Qed.

Lemma reachable_joiner_consistent s : reachable s → joiner_consistent s.
Proof.
  induction 1 as [|s socket e _ IH].
  - intros code g H. simpl in H. by rewrite lookup_empty in H.
  - by apply handle_joiner_consistent.
Qed.

End Invariant.

(** ** [LG] *)

Lemma elem_of_availableGames (gs : gmap string Game) (entry : Listing) :
  entry ∈ availableGames gs ↔
  ∃ code g, gs !! code = Some g ∧ players_slave g = None
            ∧ entry = {| id := code; l_name := name g;
                         l_created := created g;
                         l_difficulty := difficulty g |}.
Proof.
  unfold availableGames. rewrite list_elem_of_omap. split.
  - intros ([code g] & Hin%elem_of_map_to_list & Hav). simpl in Hav.
    destruct (players_slave g) eqn:Hp; [discriminate |].
    exists code, g. by simplify_eq.
  - intros (code & g & Hg & Hp & ->). exists (code, g).
    split; [by apply elem_of_map_to_list |]. simpl. by rewrite Hp.
Qed.

(** C8. In every state the server can reach, [LG] answers the caller,
    changes nothing, and a game is in the answer exactly when it has no
    slave socket; the entry of a game carries its code, name, creation
    date and difficulty. *)
Theorem listJoinable_iff_no_joiner s socket :
  reachable s →
  handle socket LG s =
    Returned tt s [(socket, Ack (RList (availableGames (games s))))]
  ∧ (∀ entry,
       entry ∈ availableGames (games s) ↔
       ∃ code g, games s !! code = Some g ∧ sockets_slave g = None
                 ∧ entry = {| id := code; l_name := name g;
                              l_created := created g;
                              l_difficulty := difficulty g |})
  ∧ (∀ code g, games s !! code = Some g →
       (sockets_slave g = None ↔
        {| id := code; l_name := name g; l_created := created g;
           l_difficulty := difficulty g |} ∈ availableGames (games s))).
Proof.
  intros Hr. pose proof (reachable_joiner_consistent s Hr) as Hc.
  split_and!; [done | |].
  - intros entry. rewrite elem_of_availableGames. split.
    + intros (code & g & Hg & Hp & ->). exists code, g.
      split_and!; [done | by apply (Hc _ _ Hg) | done].
    + intros (code & g & Hg & Hp & ->). exists code, g.
      split_and!; [done | by apply (Hc _ _ Hg) | done].
  - intros code g Hg. rewrite elem_of_availableGames. split.
    + intros Hj. exists code, g. split_and!; [done | by apply (Hc _ _ Hg) | done].
    + intros (code' & g' & Hg' & Hp & Heq).
      injection Heq as -> _ _ _. rewrite Hg in Hg'. injection Hg' as <-.
      by apply (Hc _ _ Hg).
Qed.

Lemma listJoinable_iff_no_joiner_witness :
  handle 3 LG ex_created =
    Returned tt ex_created
      [(3, Ack (RList [{| id := "k3v9q"; l_name := "Chris' Game";
                          l_created := 10; l_difficulty := 2 |}]))]
  ∧ handle 3 LG ex_joined = Returned tt ex_joined [(3, Ack (RList []))].
Proof.
  split.
  - refine (proj1 (listJoinable_iff_no_joiner ex_created 3 _)).
    exact (reachable_step boot 1 (CG "Chris" 2 d0 ["k3v9q"] 10 11)
             reachable_boot).
  - refine (proj1 (listJoinable_iff_no_joiner ex_joined 3 _)).
    exact (reachable_step _ 2 (JG "k3v9q" "Bob")
             (reachable_step boot 1 (CG "Chris" 2 d0 ["k3v9q"] 10 11)
                reachable_boot)).
Defined.

(** ** Session codes *)

Section Codes.

(** The loop of [CG] returns the first draw that is not a property of
    [games], and returns as soon as there is one. *)
Lemma do_while_spec (gs : gmap string Game) (draws : list string) code :
  do_while gs draws = Some code ↔
  ∃ pre post, draws = (pre ++ code :: post)%list
              ∧ (∀ c, c ∈ pre → is_Some (gs !! c))
              ∧ gs !! code = None.
Proof.
  induction draws as [|c draws IH]; simpl.
  - split; [done |]. intros ([|??] & ? & ? & _); discriminate.
  - case_decide as Hc.
    + rewrite IH. split.
      * intros (pre & post & -> & Hpre & Hcode). exists (c :: pre), post.
        split_and!; [done | | done].
        intros c' [->|?]%elem_of_cons; [done | by apply Hpre].
      * intros ([|c' pre] & post & Heq & Hpre & Hcode); simpl in Heq.
        -- injection Heq as -> ->. rewrite Hcode in Hc. by destruct Hc.
        -- injection Heq as -> ->. exists pre, post.
           split_and!; [done | | done].
           intros c Hin. apply Hpre. by apply list_elem_of_further.
    + apply eq_None_not_Some in Hc. split.
      * intros [= <-]. exists [], draws. split_and!; [done | | done].
        intros c' Hin. by apply not_elem_of_nil in Hin.
      * intros ([|c' pre] & post & Heq & Hpre & Hcode); simpl in Heq.
        -- by injection Heq as -> ->.
        -- injection Heq as -> ->.
           assert (is_Some (gs !! c')) as [g Hg]
             by (apply Hpre, list_elem_of_here).
           congruence.
Qed.

Lemma quiet_step s e (r : Result unit) :
  created_ids (wire r) = [] → is_create e = false →
  (∀ k, is_Some (games s !! k) → is_Some (games (state r) !! k)) →
  step_keys s e r.
Proof.
  intros Hw He Hk. unfold step_keys. rewrite Hw, He.
  split_and!; [done | | constructor | done].
  intros c Hc. by apply not_elem_of_nil in Hc.
Qed.

Lemma keys_grow_insert (gs : gmap string Game) k g k' :
  is_Some (gs !! k') → is_Some (<[k := g]> gs !! k').
Proof. rewrite lookup_insert. case_decide; [by eexists | done]. Qed.

Lemma handle_keys_grow s socket e :
  is_disconnect e = false → step_keys s e (handle socket e s).
Proof.
  intros Hd.
  destruct e as [|playerName difficulty gameData draws now now'
                 |gameID playerName|gameData|gameData|]; [| | | | |done].
  - by apply quiet_step.
  - destruct (do_while (games s) draws) as [code|] eqn:Hw.
    + rewrite (on_CG_returns _ _ _ _ _ _ _ _ _ Hw). unfold step_keys. simpl.
      split_and!; [apply keys_grow_insert | | apply NoDup_singleton | done].
      intros c ->%list_elem_of_singleton.
      split; [by eapply do_while_fresh |].
      rewrite lookup_insert_eq. by eexists.
    + handler. rewrite Hw. unfold step_keys. simpl.
      split_and!; [done | | constructor | done].
      intros c Hc. by apply not_elem_of_nil in Hc.
  - destruct (games s !! gameID) as [g|] eqn:Hg.
    + destruct (decide (players_master g = playerName)) as [Hn|Hn].
      * rewrite (on_JG_collision _ _ _ _ _ Hg Hn). by apply quiet_step.
      * rewrite (on_JG_ok _ _ _ _ _ Hg Hn).
        apply quiet_step; [done.. |]. apply keys_grow_insert.
    + rewrite (on_JG_not_found _ _ _ _ Hg). by apply quiet_step.
  - destruct (decide (role (sock s socket) = Some slave)) as [Hr|Hr].
    + destruct (games s !! key (gameID (sock s socket))) as [g|] eqn:Hg.
      * rewrite (on_M_ok _ _ _ _ Hr Hg).
        apply quiet_step; [done.. |]. apply keys_grow_insert.
      * rewrite (on_M_throws _ _ _ Hr Hg). by apply quiet_step.
    + rewrite (on_M_forbidden _ _ _ Hr). by apply quiet_step.
  - destruct (decide (role (sock s socket) = Some master)) as [Hr|Hr].
    + destruct (games s !! key (gameID (sock s socket))) as [g|] eqn:Hg.
      * destruct (sockets_slave g) as [joiner|] eqn:Hj.
        -- rewrite (on_ET_ok _ _ _ _ _ Hr Hg Hj).
           apply quiet_step; [done.. |]. apply keys_grow_insert.
        -- rewrite (on_ET_throws_no_joiner _ _ _ _ Hr Hg Hj).
           apply quiet_step; [done.. |]. apply keys_grow_insert.
      * rewrite (on_ET_throws_no_game _ _ _ Hr Hg). by apply quiet_step.
    + rewrite (on_ET_forbidden _ _ _ Hr). by apply quiet_step.
Qed.

(** A run goes on after a handler that returns and stops otherwise. *)
Lemma run_cons socket e tr s :
  run ((socket, e) :: tr) s =
  match handle socket e s with
  | Returned _ s1 o1 =>
      match run tr s1 with
      | Returned _ s2 o2 => Returned tt s2 (o1 ++ o2)
      | Thrown x s2 o2 => Thrown x s2 (o1 ++ o2)
      | Spinning s2 o2 => Spinning s2 (o1 ++ o2)
      end
  | Thrown x s1 o1 => Thrown x s1 o1
  | Spinning s1 o1 => Spinning s1 o1
  end.
Proof.
  simpl. unmonad. destruct (handle socket e s) as [[] s1 o1| |]; [| done..].
  by destruct (run tr s1) as [[] s2 o2| |].
Qed.

Lemma created_ids_app (o1 o2 : list Out) :
  created_ids (o1 ++ o2) = (created_ids o1 ++ created_ids o2)%list.
Proof. apply omap_app. Qed.

End Codes.

(** C7. The codes of the games created in a run are pairwise distinct as
    long as no game is deleted in between, that is, in any sequence of
    [CG] calls, also mixed with [LG], [JG], [M] and [ET]: every [CG]
    that returns puts one code on the wire, the code is not a property of
    [games] when it is chosen (the loop of [CG] draws again while it is,
    see [do_while_spec]) and is one from then on. *)
Theorem create_codes_distinct tr s :
  (∀ ev, ev ∈ tr → is_disconnect ev.2 = false) →
  let r := run tr s in
  NoDup (created_ids (wire r))
  ∧ (∀ c, c ∈ created_ids (wire r) →
          games s !! c = None ∧ is_Some (games (state r) !! c))
  ∧ (∀ k, is_Some (games s !! k) → is_Some (games (state r) !! k))
  ∧ (returns r = true →
     length (created_ids (wire r)) =
     length (filter (λ ev, is_create ev.2) tr)).
Proof.
  revert s. induction tr as [|[socket e] tr IH]; intros s Hnd.
  - simpl. split_and!; [constructor | | done..].
    intros c Hc. by apply not_elem_of_nil in Hc.
  - assert (is_disconnect e = false) as Hd
      by apply (Hnd (socket, e)), list_elem_of_here.
    assert (∀ ev, ev ∈ tr → is_disconnect ev.2 = false) as Hnd'
      by (intros ev Hev; by apply Hnd, list_elem_of_further).
    pose proof (handle_keys_grow s socket e Hd) as (Hk1 & Hc1 & Hn1 & Hl1).
    intros r. subst r. rewrite run_cons.
    destruct (handle socket e s) as [[] s1 o1|x s1 o1|s1 o1]; simpl in *;
      [| by split_and!..].
    specialize (IH s1 Hnd') as (Hn2 & Hc2 & Hk2 & Hl2).
    assert (∀ o2 s2,
              wire (run tr s1) = o2 → state (run tr s1) = s2 →
              NoDup (created_ids (o1 ++ o2))
              ∧ (∀ c, c ∈ created_ids (o1 ++ o2) →
                      games s !! c = None ∧ is_Some (games s2 !! c))
              ∧ (∀ k, is_Some (games s !! k) → is_Some (games s2 !! k)))
      as Hall.
    { intros o2 s2 <- <-. rewrite created_ids_app. split_and!.
      - apply NoDup_app. split_and!; [done | | done].
        intros c Hin1 Hin2. apply Hc1 in Hin1 as [_ [g Hg]].
        apply Hc2 in Hin2 as [Hnone _]. congruence.
      - intros c [Hin|Hin]%elem_of_app.
        + apply Hc1 in Hin as [? ?]. split; [done | by apply Hk2].
        + apply Hc2 in Hin as [Hnone ?]. split; [| done].
          destruct (games s !! c) eqn:Hs; [| done].
          assert (is_Some (games s1 !! c)) as [g' Hg']
            by (apply Hk1; eauto).
          congruence.
      - intros k Hk. by apply Hk2, Hk1. }
    destruct (run tr s1) as [[] s2 o2|x s2 o2|s2 o2]; simpl in *;
      destruct (Hall o2 s2 eq_refl eq_refl) as (? & ? & ?);
      split_and!; try done.
    intros _. rewrite created_ids_app, length_app, Hl1, Hl2 by done.
    rewrite filter_cons. simpl. by destruct (is_create e).
Qed.

Lemma create_codes_distinct_witness :
  let r := run [(1, CG "Chris" 2 d0 ["k3v9q"] 10 11);
                (2, CG "Jack" 1 d1 ["k3v9q"; "k3v9q"; "0ab"] 20 21)] boot in
  returns r = true
  ∧ created_ids (wire r) = ["k3v9q"; "0ab"]
  ∧ NoDup (created_ids (wire r)).
Proof.
  split; [reflexivity |]. split; [reflexivity |].
  refine (proj1 (create_codes_distinct
                   [(1, CG "Chris" 2 d0 ["k3v9q"] 10 11);
                    (2, CG "Jack" 1 d1 ["k3v9q"; "k3v9q"; "0ab"] 20 21)]
                   boot _)).
  intros ev Hev. repeat (apply elem_of_cons in Hev as [->|Hev]; [done |]).
  by apply not_elem_of_nil in Hev.
Defined.

(** Once [disconnect] has deleted a game its code is free again. *)
Remark code_drawn_again_after_disconnect :
  created_ids
    (wire (run [(1, CG "Chris" 2 d0 ["k3v9q"] 10 11);
                (1, disconnect);
                (2, CG "Jack" 1 d1 ["k3v9q"] 20 21)] boot)) =
  ["k3v9q"; "k3v9q"].
Proof. vm_compute. done. Qed.

(** ** What the handlers do once the game of a socket is gone *)

(** X9. [disconnect] of a socket whose game is registered: the opponent, if
    there is one, is sent one [EG] and is reset, the game is deleted, and
    from then on [LG] does not list the code and [JG] does not find it. *)
Lemma disconnect_when_registered s socket code g :
  gameID (sock s socket) = Some code → code ≠ EmptyString →
  games s !! code = Some g →
  ∃ s', handle socket disconnect s =
          Returned tt s'
            (match opponent_of (role (sock s socket)) g with
             | Some opponent => [(opponent, EG)]
             | None => []
             end)
        ∧ games s' !! code = None
        ∧ (∀ opponent, opponent_of (role (sock s socket)) g = Some opponent →
             sock s' opponent = connected)
        ∧ (∀ entry, entry ∈ availableGames (games s') → id entry ≠ code)
        ∧ (∀ caller playerName,
             handle caller (JG code playerName) s' =
             Returned tt s' [(caller, Ack (RErr NotFound))]).
Proof.
  intros Hid Hne Hg.
  assert (falsy (gameID (sock s socket)) = false) as Hf
    by (rewrite Hid; simpl; by apply bool_decide_eq_false).
  assert (key (gameID (sock s socket)) = code) as Hk by by rewrite Hid.
  rewrite <- Hk in Hg.
  destruct (opponent_of (role (sock s socket)) g) as [o|] eqn:Ho.
  - rewrite (on_disconnect_opponent _ _ _ _ Hf Hg Ho). rewrite Hk.
    eexists. split; [reflexivity |]. simpl.
    split_and!.
    + apply lookup_delete_eq.
    + intros ? [= <-]. unfold sock. simpl. by rewrite lookup_insert_eq.
    + intros entry (c & g' & Hc & _ & ->)%elem_of_availableGames. simpl.
      intros ->. by rewrite lookup_delete_eq in Hc.
    + intros caller playerName. apply on_JG_not_found. simpl.
      apply lookup_delete_eq.
  - rewrite (on_disconnect_alone _ _ _ Hf Hg Ho). rewrite Hk.
    eexists. split; [reflexivity |]. simpl.
    split_and!.
    + apply lookup_delete_eq.
    + done.
    + intros entry (c & g' & Hc & _ & ->)%elem_of_availableGames. simpl.
      intros ->. by rewrite lookup_delete_eq in Hc.
    + intros caller playerName. apply on_JG_not_found. simpl.
      apply lookup_delete_eq.
Qed.

(** C1. Not every handler returns: [ET] from a socket that has created a
    game nobody has joined stores the data, answers ok and then raises
    [TypeError] on [games[gameID].sockets.slave.emit], the slave socket
    being [null]. *)
Theorem endTurn_without_joiner_raises :
  let r := run [(1, CG "Chris" 2 d0 ["k3v9q"] 10 11); (1, ET d1)] boot in
  throws r = true
  ∧ wire r = [(1, Ack (RGame {| id := "k3v9q"; l_name := "Chris' Game";
                                l_created := 11; l_difficulty := 2 |}));
              (1, Ack ROk)]
  ∧ data <$> games (state r) !! "k3v9q" = Some d1.
Proof. vm_compute. done. Qed.

(** C2. A socket whose role is master, in a game without a slave: [ET]
    stores the data and answers ok, but nobody is sent [PP] and the
    handler ends in [TypeError]. *)
Theorem endTurn_initiator_alone :
  role (sock ex_created 1) = Some master
  ∧ sockets_slave <$> games ex_created !! "k3v9q" = Some None
  ∧ handle 1 (ET d1) ex_created =
    Thrown TypeError
      {| games := <["k3v9q" := {| name := "Chris' Game"; difficulty := 2;
                                  players_master := "Chris";
                                  players_slave := None;
                                  created := 10; data := d1;
                                  sockets_master := 1;
                                  sockets_slave := None |}]> ∅;
         sockets := sockets ex_created |}
      [(1, Ack ROk)].
Proof. vm_compute. done. Qed.

(** C3. A socket whose role is slave and whose game id is set, after the
    game has been deleted by the disconnect of a second slave: [M] raises
    [TypeError] on [games[gameID].data = gameData] and answers nothing. *)
Theorem move_after_game_deleted :
  returns (run [(1, CG "Chris" 2 d0 ["k3v9q"] 10 11);
                (2, JG "k3v9q" "Bob");
                (3, JG "k3v9q" "Eve");
                (3, disconnect)] boot) = true
  ∧ sock ex_stale 2 = {| gameID := Some "k3v9q"; role := Some slave |}
  ∧ games ex_stale !! "k3v9q" = None
  ∧ handle 2 (M d1) ex_stale = Thrown TypeError ex_stale [].
Proof. vm_compute. done. Qed.

(** C5. The same socket, disconnecting: its game id is set, so the
    handler goes on to [games[gameID].sockets.master] and raises
    [TypeError], the game being gone. *)
Theorem disconnect_after_game_deleted :
  falsy (gameID (sock ex_stale 2)) = false
  ∧ role (sock ex_stale 2) = Some slave
  ∧ games ex_stale = ∅
  ∧ handle 2 disconnect ex_stale = Thrown TypeError ex_stale [].
Proof. vm_compute. done. Qed.

(** C4, as stated, does not hold: right after socket 2 has joined the
    game of socket 1, the [ET] of socket 1 is accepted, replaces the data
    and sends it to socket 2; and a second [M] in a row is accepted too. *)
Lemma endTurn_right_after_join :
  handle 2 (JG "k3v9q" "Bob") ex_created =
    Returned tt ex_joined [(2, Ack ROk); (1, GS); (2, PP d0)]
  ∧ wire (handle 1 (ET d1) ex_joined) = [(1, Ack ROk); (2, PP d1)]
  ∧ data <$> games (state (handle 1 (ET d1) ex_joined)) !! "k3v9q" = Some d1
  ∧ wire (run [(2, M d1); (2, M d0)] ex_joined) =
    [(2, Ack ROk); (1, PP d1); (2, Ack ROk); (1, PP d0)]
  ∧ ¬ alternation_as_stated.
Proof.
  split_and!; [vm_compute; done.. |].
  intros H.
  apply (H ex_created 2 "k3v9q" "Bob" ex_joined
           [(2, Ack ROk); (1, GS); (2, PP d0)]
           {| name := "Chris' Game"; difficulty := 2;
              players_master := "Chris"; players_slave := Some "Bob";
              created := 10; data := d0;
              sockets_master := 1; sockets_slave := Some 2 |} d1).
  - exact (reachable_step boot 1 (CG "Chris" 2 d0 ["k3v9q"] 10 11)
             reachable_boot).
  - vm_compute. done.
  - apply list_elem_of_here.
  - vm_compute. done.
  - simpl. replace (wire (handle 1 (ET d1) ex_joined))
      with [(1, Ack ROk); (2, PP d1)] by (vm_compute; done).
    apply list_elem_of_here.
Qed.

(** A game whose code is the empty string (a draw of [Math.random()]
    that prints as ["0"]) stays registered when its creator disconnects:
    [!socket.gameID] holds for the empty string as it does for [null]. *)
Remark disconnect_empty_code :
  let s := state (run [(1, CG "Chris" 2 d0 [EmptyString] 10 11)] boot) in
  gameID (sock s 1) = Some EmptyString
  ∧ handle 1 disconnect s = Returned tt s []
  ∧ is_Some (games s !! EmptyString).
Proof. vm_compute. eauto. Qed.

(** * Beyond the claims *)

(** ** Every change of state is one of [effect] *)

Lemma handle_effect s socket e : effect s socket e (state (handle socket e s)).
Proof.
  destruct e as [|playerName difficulty gameData draws now now'
                 |gameID playerName|gameData|gameData|].
  - apply effect_none.
  - destruct (do_while (games s) draws) as [code|] eqn:Hw.
    + rewrite (on_CG_returns _ _ _ _ _ _ _ _ _ Hw). simpl.
      apply effect_create. by eapply do_while_fresh.
    + handler. rewrite Hw. apply effect_none.
  - destruct (games s !! gameID) as [g|] eqn:Hg.
    + destruct (decide (players_master g = playerName)) as [Hn|Hn].
      * rewrite (on_JG_collision _ _ _ _ _ Hg Hn). apply effect_none.
      * rewrite (on_JG_ok _ _ _ _ _ Hg Hn). by apply effect_join.
    + rewrite (on_JG_not_found _ _ _ _ Hg). apply effect_none.
  - destruct (decide (role (sock s socket) = Some slave)) as [Hr|Hr].
    + destruct (games s !! key (gameID (sock s socket))) as [g|] eqn:Hg.
      * rewrite (on_M_ok _ _ _ _ Hr Hg). by apply effect_move.
      * rewrite (on_M_throws _ _ _ Hr Hg). apply effect_none.
    + rewrite (on_M_forbidden _ _ _ Hr). apply effect_none.
  - destruct (decide (role (sock s socket) = Some master)) as [Hr|Hr].
    + destruct (games s !! key (gameID (sock s socket))) as [g|] eqn:Hg.
      * destruct (sockets_slave g) as [joiner|] eqn:Hj.
        -- rewrite (on_ET_ok _ _ _ _ _ Hr Hg Hj). by apply effect_endTurn.
        -- rewrite (on_ET_throws_no_joiner _ _ _ _ Hr Hg Hj).
           by apply effect_endTurn.
      * rewrite (on_ET_throws_no_game _ _ _ Hr Hg). apply effect_none.
    + rewrite (on_ET_forbidden _ _ _ Hr). apply effect_none.
  - destruct (falsy (gameID (sock s socket))) eqn:Hf.
    + rewrite (on_disconnect_lobby _ _ Hf). apply effect_none.
    + destruct (games s !! key (gameID (sock s socket))) as [g|] eqn:Hg.
      * pose proof (effect_leave s socket g Hf Hg) as He.
        destruct (opponent_of (role (sock s socket)) g) as [o|] eqn:Ho.
        -- by rewrite (on_disconnect_opponent _ _ _ _ Hf Hg Ho).
        -- by rewrite (on_disconnect_alone _ _ _ Hf Hg Ho).
      * rewrite (on_disconnect_throws _ _ Hf Hg). apply effect_none.
Qed.

Lemma sock_insert gs (t : gmap SockId Socket) x v y :
  sock {| games := gs; sockets := <[x := v]> t |} y =
  if decide (x = y) then v else default connected (t !! y).
Proof.
  unfold sock. simpl. rewrite lookup_insert. by case_decide.
Qed.

(** An invariant of [effect] holds in every reachable state. *)
Lemma reachable_ind_effect (P : Server → Prop) :
  P boot →
  (∀ s socket e s', P s → effect s socket e s' → P s') →
  ∀ s, reachable s → P s.
Proof.
  intros Hboot Hstep s. induction 1 as [|s socket e _ IH]; [done |].
  eapply Hstep; [exact IH | apply handle_effect].
Qed.

(** ** Invariants of the socket fields and of the games *)

Lemma effect_fields_together s socket e s' :
  (∀ x, gameID (sock s x) = None ↔ role (sock s x) = None) →
  effect s socket e s' →
  ∀ x, gameID (sock s' x) = None ↔ role (sock s' x) = None.
Proof.
  intros Hs He x. destruct He; try apply Hs.
  - rewrite sock_insert. case_decide; [done | apply Hs].
  - rewrite sock_insert. case_decide; [done | apply Hs].
  - destruct (opponent_of _ _); [| apply Hs].
    rewrite sock_insert. case_decide; [done | apply Hs].
Qed.

(** X1. In every state the server can reach, a socket has a game id
    exactly when it has a role: [CG] and [JG] set the two together and
    [disconnect] clears them together. *)
Theorem socket_fields_together s socket :
  reachable s →
  (gameID (sock s socket) = None ↔ role (sock s socket) = None)
  ∧ (∀ r, role (sock s socket) = Some r →
          ∃ code, gameID (sock s socket) = Some code).
Proof.
  intros Hr.
  assert (∀ x, gameID (sock s x) = None ↔ role (sock s x) = None) as H.
  { refine (reachable_ind_effect
              (λ s, ∀ x, gameID (sock s x) = None ↔ role (sock s x) = None)
              _ _ s Hr).
    - done.
    - intros s0 x e s' Hs He. by eapply effect_fields_together. }
  split; [apply H |]. intros r Hrole.
  destruct (gameID (sock s socket)) as [code|] eqn:Hid; [by eexists |].
  apply H in Hid. congruence.
Qed.

Lemma socket_fields_together_witness :
  (gameID (sock ex_stale 2) = None ↔ role (sock ex_stale 2) = None)
  ∧ (gameID (sock ex_stale 1) = None ↔ role (sock ex_stale 1) = None).
Proof.
  assert (reachable ex_stale) as Hr.
  { exact (reachable_step _ 3 disconnect
             (reachable_step _ 3 (JG "k3v9q" "Eve")
                (reachable_step _ 2 (JG "k3v9q" "Bob")
                   (reachable_step boot 1 (CG "Chris" 2 d0 ["k3v9q"] 10 11)
                      reachable_boot)))). }
  split.
  - exact (proj1 (socket_fields_together ex_stale 2 Hr)).
  - exact (proj1 (socket_fields_together ex_stale 1 Hr)).
Defined.

Lemma effect_game_wf s socket e s' :
  (∀ code g, games s !! code = Some g → game_wf g) →
  effect s socket e s' →
  ∀ code g, games s' !! code = Some g → game_wf g.
Proof.
  intros Hs He code g' Hg'. destruct He; simpl in Hg'.
  all: try (apply lookup_insert_Some in Hg' as [[_ <-]|[_ Hg']]).
  all: try (apply lookup_delete_Some in Hg' as [_ Hg']).
  all: try (by eapply Hs).
  - by split.
  - match goal with
    | Hg : games s !! _ = Some g |- _ => destruct (Hs _ _ Hg) as [Hn _]
    end.
    split; [done |]. simpl. congruence.
  - match goal with Hg : games s !! _ = Some g |- _ => exact (Hs _ _ Hg) end.
  - match goal with Hg : games s !! _ = Some g |- _ => exact (Hs _ _ Hg) end.
Qed.

Lemma reachable_game_wf s code g :
  reachable s → games s !! code = Some g → game_wf g.
Proof.
  intros Hr. revert code g.
  refine (reachable_ind_effect
            (λ s, ∀ code g, games s !! code = Some g → game_wf g) _ _ s Hr).
  - intros code g H. simpl in H. by rewrite lookup_empty in H.
  - intros s0 x e s' Hs He. by eapply effect_game_wf.
Qed.

(** X2. In every state the server can reach, the slave of a game does not
    bear the name of its master: [JG] refuses that name and nothing
    changes a name afterwards. *)
Theorem joiner_name_differs s code g :
  reachable s → games s !! code = Some g →
  players_slave g ≠ Some (players_master g).
Proof. intros Hr Hg. by destruct (reachable_game_wf s code g Hr Hg). Qed.

Lemma joiner_name_differs_witness :
  ∃ g, games ex_joined !! "k3v9q" = Some g
       ∧ players_slave g ≠ Some (players_master g).
Proof.
  eexists. split; [reflexivity |].
  refine (joiner_name_differs ex_joined "k3v9q" _ _ eq_refl).
  exact (reachable_step _ 2 (JG "k3v9q" "Bob")
           (reachable_step boot 1 (CG "Chris" 2 d0 ["k3v9q"] 10 11)
              reachable_boot)).
Defined.

(** X3. In every state the server can reach, the name of a game is the
    one [CG] derives from the name of its master, and so is the name of
    every entry [LG] answers with. *)
Theorem name_follows_master s :
  reachable s →
  (∀ code g, games s !! code = Some g →
             name g = gameName (players_master g))
  ∧ (∀ entry, entry ∈ availableGames (games s) →
              ∃ g, games s !! id entry = Some g
                   ∧ l_name entry = gameName (players_master g)).
Proof.
  intros Hr. split.
  - intros code g Hg. by destruct (reachable_game_wf s code g Hr Hg).
  - intros entry (code & g & Hg & _ & ->)%elem_of_availableGames.
    exists g. split; [done |]. simpl.
    by destruct (reachable_game_wf s code g Hr Hg).
Qed.

Lemma name_follows_master_witness :
  ∃ g, games ex_created !! "k3v9q" = Some g
       ∧ name g = gameName (players_master g).
Proof.
  eexists. split; [reflexivity |].
  refine (proj1 (name_follows_master ex_created _) "k3v9q" _ eq_refl).
  exact (reachable_step boot 1 (CG "Chris" 2 d0 ["k3v9q"] 10 11)
           reachable_boot).
Defined.

(** ** What the handlers put on the wire, and when they raise *)

(** X4. [CG] takes the first draw that is not a property of [games]: it
    returns with that code whatever the draws before it were, and it
    keeps looping, with nothing changed and nothing sent, exactly when
    every draw is taken. *)
Theorem CG_takes_first_free_draw s socket playerName difficulty gameData
    draws now now' :
  let r := handle socket (CG playerName difficulty gameData draws now now') s
  in
  (r = Spinning s [] ↔ ∀ c, c ∈ draws → is_Some (games s !! c))
  ∧ (∀ pre code post,
       draws = (pre ++ code :: post)%list →
       (∀ c, c ∈ pre → is_Some (games s !! c)) →
       games s !! code = None →
       returns r = true ∧ created_ids (wire r) = [code]
       ∧ gameID (sock (state r) socket) = Some code
       ∧ role (sock (state r) socket) = Some master).
Proof.
  intros r. subst r. split.
  - destruct (do_while (games s) draws) as [code|] eqn:Hw.
    + rewrite (on_CG_returns _ _ _ _ _ _ _ _ _ Hw). split; [done |].
      intros Hall. apply do_while_spec in Hw as (pre & post & -> & _ & Hc).
      destruct (Hall code) as [g Hg]; [| congruence].
      apply elem_of_app. right. apply list_elem_of_here.
    + split.
      * intros _ c Hin. destruct (games s !! c) eqn:Hc; [by eexists |].
        destruct (do_while_total _ _ _ Hin Hc) as [? ?]. congruence.
      * intros _. handler. by rewrite Hw.
  - intros pre code post Hd Hpre Hcode.
    assert (do_while (games s) draws = Some code) as Hw
      by (apply do_while_spec; by exists pre, post).
    rewrite (on_CG_returns _ _ _ _ _ _ _ _ _ Hw). simpl.
    split_and!; [done.. | |]; rewrite sock_insert; by rewrite decide_True.
Qed.

Lemma on_LG_returns s socket :
  handle socket LG s =
  Returned tt s [(socket, Ack (RList (availableGames (games s))))].
Proof. reflexivity. Qed.

(** X5. A handler that returns has answered the caller once and nobody
    else, except [disconnect], which answers nobody. *)
Theorem one_answer_per_command s socket e :
  returns (handle socket e s) = true →
  if is_disconnect e then acks (wire (handle socket e s)) = []
  else ∃ r, acks (wire (handle socket e s)) = [(socket, r)].
Proof.
  destruct e as [|playerName difficulty gameData draws now now'
                 |gameID playerName|gameData|gameData|];
    unfold is_disconnect.
  - intros _. rewrite on_LG_returns. by eexists.
  - destruct (do_while (games s) draws) as [code|] eqn:Hw.
    + rewrite (on_CG_returns _ _ _ _ _ _ _ _ _ Hw). by eexists.
    + handler. by rewrite Hw.
  - destruct (games s !! gameID) as [g|] eqn:Hg.
    + destruct (decide (players_master g = playerName)) as [Hn|Hn].
      * rewrite (on_JG_collision _ _ _ _ _ Hg Hn). by eexists.
      * rewrite (on_JG_ok _ _ _ _ _ Hg Hn). by eexists.
    + rewrite (on_JG_not_found _ _ _ _ Hg). by eexists.
  - destruct (decide (role (sock s socket) = Some slave)) as [Hr|Hr].
    + destruct (games s !! key (gameID (sock s socket))) as [g|] eqn:Hg.
      * rewrite (on_M_ok _ _ _ _ Hr Hg). by eexists.
      * by rewrite (on_M_throws _ _ _ Hr Hg).
    + rewrite (on_M_forbidden _ _ _ Hr). by eexists.
  - destruct (decide (role (sock s socket) = Some master)) as [Hr|Hr].
    + destruct (games s !! key (gameID (sock s socket))) as [g|] eqn:Hg.
      * destruct (sockets_slave g) as [joiner|] eqn:Hj.
        -- rewrite (on_ET_ok _ _ _ _ _ Hr Hg Hj). by eexists.
        -- by rewrite (on_ET_throws_no_joiner _ _ _ _ Hr Hg Hj).
      * by rewrite (on_ET_throws_no_game _ _ _ Hr Hg).
    + rewrite (on_ET_forbidden _ _ _ Hr). by eexists.
  - destruct (falsy (gameID (sock s socket))) eqn:Hf.
    + by rewrite (on_disconnect_lobby _ _ Hf).
    + destruct (games s !! key (gameID (sock s socket))) as [g|] eqn:Hg.
      * destruct (opponent_of (role (sock s socket)) g) as [o|] eqn:Ho.
        -- by rewrite (on_disconnect_opponent _ _ _ _ Hf Hg Ho).
        -- by rewrite (on_disconnect_alone _ _ _ Hf Hg Ho).
      * by rewrite (on_disconnect_throws _ _ Hf Hg).
Qed.

Lemma one_answer_per_command_witness :
  (∃ r, acks (wire (handle 2 (M d1) ex_joined)) = [(2, r)])
  ∧ acks (wire (handle 1 disconnect ex_joined)) = [].
Proof.
  split.
  - exact (one_answer_per_command ex_joined 2 (M d1) eq_refl).
  - exact (one_answer_per_command ex_joined 1 disconnect eq_refl).
Defined.



(** ** What a handler leaves alone *)

Lemma effect_turn s socket e s' gameData :
  e = M gameData ∨ e = ET gameData →
  effect s socket e s' →
  sockets s' = sockets s
  ∧ ∀ k, games s' !! k = games s !! k
         ∨ (k = key (gameID (sock s socket))
            ∧ ∃ g, games s !! k = Some g
                   ∧ games s' !! k = Some (with_data g gameData)).
Proof.
  intros He Heff. destruct Heff; try (destruct He; discriminate).
  - split; [done |]. by left.
  - destruct He as [[= <-]|?]; [| discriminate]. split; [done |].
    intros k. simpl. rewrite lookup_insert. case_decide as Hk.
    + right. subst k. split; [done |]. by exists g.
    + by left.
  - destruct He as [?|[= <-]]; [discriminate |]. split; [done |].
    intros k. simpl. rewrite lookup_insert. case_decide as Hk.
    + right. subst k. split; [done |]. by exists g.
    + by left.
Qed.

(** X7. [M] and [ET] touch nothing but the data of the caller's game,
    whether they return or raise: all socket fields stay as they are,
    every other game stays as it is, and the caller's game keeps its
    name, players, sockets and date. *)
Theorem turn_changes_only_data s socket e gameData :
  e = M gameData ∨ e = ET gameData →
  sockets (state (handle socket e s)) = sockets s
  ∧ ∀ k, games (state (handle socket e s)) !! k = games s !! k
         ∨ (k = key (gameID (sock s socket))
            ∧ ∃ g, games s !! k = Some g
                   ∧ games (state (handle socket e s)) !! k =
                     Some (with_data g gameData)).
Proof. intros He. eapply effect_turn; [done | apply handle_effect]. Qed.

Lemma turn_changes_only_data_witness :
  sockets (state (handle 1 (ET d1) ex_created)) = sockets ex_created
  ∧ sockets (state (handle 2 (M d1) ex_joined)) = sockets ex_joined.
Proof.
  split.
  - exact (proj1 (turn_changes_only_data ex_created 1 (ET d1) d1
                    (or_intror eq_refl))).
  - exact (proj1 (turn_changes_only_data ex_joined 2 (M d1) d1
                    (or_introl eq_refl))).
Defined.

Lemma effect_keys s socket e s' :
  effect s socket e s' →
  (is_create e = false →
   ∀ k, is_Some (games s' !! k) → is_Some (games s !! k))
  ∧ (∀ k, is_Some (games s !! k) → games s' !! k = None →
          e = disconnect ∧ k = key (gameID (sock s socket)))
  ∧ (∀ k k', games s !! k = None → is_Some (games s' !! k) →
             games s !! k' = None → is_Some (games s' !! k') → k = k').
Proof.
  assert (∀ (gs : gmap string Game) c g k,
            is_Some (gs !! c) → is_Some (<[c := g]> gs !! k) →
            is_Some (gs !! k)) as Hsame.
  { intros gs c g k Hc. rewrite lookup_insert. by case_decide; [subst |]. }
  assert (∀ (gs : gmap string Game) c g k,
            is_Some (gs !! k) → <[c := g]> gs !! k = None → False) as Hkeep.
  { intros gs c g k [g' Hk]. rewrite lookup_insert.
    case_decide; [done | congruence]. }
  assert (∀ (gs : gmap string Game) c g k,
            gs !! k = None → is_Some (<[c := g]> gs !! k) → k = c) as Hnew.
  { intros gs c g k Hk. rewrite lookup_insert.
    case_decide; [done |]. rewrite Hk. by intros [? ?]. }
  intros He. destruct He; simpl.
  - split_and!; [done | |].
    + intros k [g Hk] Hn. congruence.
    + intros k k' Hk [g Hg]. congruence.
  - split_and!; [done | |].
    + intros k Hk Hn. by destruct (Hkeep _ _ _ _ Hk Hn).
    + intros k k' Hk Hk1 Hk' Hk1'.
      apply Hnew in Hk1; [| done]. apply Hnew in Hk1'; [| done]. congruence.
  - split_and!.
    + intros _ k. by apply Hsame.
    + intros k Hk Hn. by destruct (Hkeep _ _ _ _ Hk Hn).
    + intros k k' Hk Hk1 Hk' Hk1'.
      apply Hnew in Hk1; [| done]. apply Hnew in Hk1'; [| done]. congruence.
  - split_and!.
    + intros _ k. by apply Hsame.
    + intros k Hk Hn. by destruct (Hkeep _ _ _ _ Hk Hn).
    + intros k k' Hk Hk1 Hk' Hk1'.
      apply Hnew in Hk1; [| done]. apply Hnew in Hk1'; [| done]. congruence.
  - split_and!.
    + intros _ k. by apply Hsame.
    + intros k Hk Hn. by destruct (Hkeep _ _ _ _ Hk Hn).
    + intros k k' Hk Hk1 Hk' Hk1'.
      apply Hnew in Hk1; [| done]. apply Hnew in Hk1'; [| done]. congruence.
  - split_and!.
    + intros _ k [g' Hk]. apply lookup_delete_Some in Hk as [_ Hk].
      by eexists.
    + intros k [g' Hk] Hn. split; [done |].
      apply lookup_delete_None in Hn as [Hn|Hn]; [done | congruence].
    + intros k k' Hk [g' Hk1]. apply lookup_delete_Some in Hk1 as [_ Hk1].
      congruence.
Qed.

(** X8. How a handler changes the set of registered codes: only [CG]
    adds a code, and at most one; only [disconnect] removes a code, and
    only the one the caller's socket holds; every other handler keeps the
    set as it is. *)
Theorem registry_keys s socket e :
  (is_create e = false →
   ∀ k, is_Some (games (state (handle socket e s)) !! k) →
        is_Some (games s !! k))
  ∧ (∀ k, is_Some (games s !! k) →
          games (state (handle socket e s)) !! k = None →
          e = disconnect ∧ k = key (gameID (sock s socket)))
  ∧ (∀ k k', games s !! k = None →
             is_Some (games (state (handle socket e s)) !! k) →
             games s !! k' = None →
             is_Some (games (state (handle socket e s)) !! k') → k = k').
Proof. apply effect_keys, handle_effect. Qed.

(** ** After a disconnect *)

Lemma disconnect_when_registered_witness :
  ∃ s', handle 1 disconnect ex_joined = Returned tt s' [(2, EG)]
        ∧ games s' !! "k3v9q" = None
        ∧ sock s' 2 = connected
        ∧ handle 3 (JG "k3v9q" "Eve") s' =
          Returned tt s' [(3, Ack (RErr NotFound))].
Proof.
  destruct (disconnect_when_registered ex_joined 1 "k3v9q"
              {| name := "Chris' Game"; difficulty := 2;
                 players_master := "Chris"; players_slave := Some "Bob";
                 created := 10; data := d0;
                 sockets_master := 1; sockets_slave := Some 2 |})
    as (s' & H1 & H2 & H3 & _ & H5); [reflexivity | discriminate |
                                      reflexivity |].
  exists s'. split_and!; [exact H1 | exact H2 | | exact (H5 3 "Eve")].
  apply H3. reflexivity.
Defined.

(** X10. The socket that [disconnect] resets is back where a new
    connection starts: its [M] and its [ET] are answered [Forbidden], its
    own [disconnect] does nothing, and none of the three raises or
    changes the state. *)
Theorem survivor_back_in_lobby s socket code g opponent gameData :
  gameID (sock s socket) = Some code → code ≠ EmptyString →
  games s !! code = Some g →
  opponent_of (role (sock s socket)) g = Some opponent →
  let s' := state (handle socket disconnect s) in
  handle opponent (M gameData) s' =
    Returned tt s' [(opponent, Ack (RErr Forbidden_M))]
  ∧ handle opponent (ET gameData) s' =
    Returned tt s' [(opponent, Ack (RErr Forbidden_ET))]
  ∧ handle opponent disconnect s' = Returned tt s' [].
Proof.
  intros Hid Hne Hg Ho s'.
  assert (sock s' opponent = connected) as Hs.
  { assert (key (gameID (sock s socket)) = code) as Hk by by rewrite Hid.
    rewrite <- Hk in Hg. subst s'.
    rewrite (on_disconnect_opponent s socket g opponent); [| | done..].
    - cbn [state]. rewrite sock_insert. by rewrite decide_True.
    - rewrite Hid. simpl. by apply bool_decide_eq_false. }
  split_and!.
  - apply on_M_forbidden. by rewrite Hs.
  - apply on_ET_forbidden. by rewrite Hs.
  - apply on_disconnect_lobby. by rewrite Hs.
Qed.

Lemma survivor_back_in_lobby_witness :
  let s' := state (handle 2 disconnect ex_joined) in
  handle 1 (M d1) s' = Returned tt s' [(1, Ack (RErr Forbidden_M))]
  ∧ handle 1 (ET d1) s' = Returned tt s' [(1, Ack (RErr Forbidden_ET))]
  ∧ handle 1 disconnect s' = Returned tt s' [].
Proof.
  apply (survivor_back_in_lobby ex_joined 2 "k3v9q"
           {| name := "Chris' Game"; difficulty := 2;
              players_master := "Chris"; players_slave := Some "Bob";
              created := 10; data := d0;
              sockets_master := 1; sockets_slave := Some 2 |} 1 d1);
    [reflexivity | discriminate | reflexivity | reflexivity].
Defined.

(** X11. A socket that creates a second game leaves the first one
    behind: its [disconnect] deletes the game of the second [CG] only,
    and the first stays registered and joinable, with a master socket
    that is gone. *)
Theorem second_create_orphans_first s socket
    playerName difficulty gameData draws now now' code
    playerName2 difficulty2 gameData2 draws2 now2 now2' code2 :
  do_while (games s) draws = Some code →
  let s1 :=
    state (handle socket (CG playerName difficulty gameData draws now now') s)
  in
  do_while (games s1) draws2 = Some code2 → code2 ≠ EmptyString →
  let r :=
    run [(socket, CG playerName2 difficulty2 gameData2 draws2 now2 now2');
         (socket, disconnect)] s1 in
  returns r = true
  ∧ games (state r) !! code2 = None
  ∧ games (state r) !! code =
    Some {| name := gameName playerName; difficulty := difficulty;
            players_master := playerName; players_slave := None;
            created := now; data := gameData;
            sockets_master := socket; sockets_slave := None |}
  ∧ {| id := code; l_name := gameName playerName; l_created := now;
       l_difficulty := difficulty |} ∈ availableGames (games (state r)).
Proof.
  intros Hw s1 Hw2 Hne r.
  assert (code ≠ code2) as Hcc.
  { intros <-. apply do_while_fresh in Hw2. subst s1.
    rewrite (on_CG_returns _ _ _ _ _ _ _ _ _ Hw) in Hw2. simpl in Hw2.
    by rewrite lookup_insert_eq in Hw2. }
  assert (games s1 !! code =
          Some {| name := gameName playerName; difficulty := difficulty;
                  players_master := playerName; players_slave := None;
                  created := now; data := gameData;
                  sockets_master := socket; sockets_slave := None |})
    as Hg1.
  { subst s1. rewrite (on_CG_returns _ _ _ _ _ _ _ _ _ Hw). simpl.
    apply lookup_insert_eq. }
  subst r. rewrite run_cons.
  rewrite (on_CG_returns _ _ _ _ _ _ _ _ _ Hw2).
  match goal with |- context [run _ ?st] => set (s2 := st) end.
  assert (sock s2 socket = {| gameID := Some code2; role := Some master |})
    as Hs2 by (subst s2; rewrite sock_insert; by rewrite decide_True).
  assert (handle socket disconnect s2 =
          Returned tt {| games := delete code2 (games s2);
                         sockets := sockets s2 |} []) as Hd.
  { pose proof (on_disconnect_alone s2 socket
                  {| name := gameName playerName2; difficulty := difficulty2;
                     players_master := playerName2; players_slave := None;
                     created := now2; data := gameData2;
                     sockets_master := socket; sockets_slave := None |})
      as H.
    rewrite Hs2 in H. simpl in H.
    apply H; [by apply bool_decide_eq_false | apply lookup_insert_eq | done]. }
  rewrite run_cons, Hd. simpl.
  assert (∀ g2 : Game,
            delete code2 (<[code2 := g2]> (games s1)) !! code =
            games s1 !! code) as Hkeep.
  { intros g2. rewrite lookup_delete_ne by done.
    by rewrite lookup_insert_ne by done. }
  split_and!; [done | apply lookup_delete_eq | by rewrite Hkeep |].
  apply elem_of_availableGames. eexists code, _.
  split_and!; [by rewrite Hkeep | done | done].
Qed.

Lemma second_create_orphans_first_witness :
  let r := run [(1, CG "Jack" 1 d1 ["k3v9q"; "0ab"] 20 21);
                (1, disconnect)] ex_created in
  returns r = true
  ∧ games (state r) !! "0ab" = None
  ∧ {| id := "k3v9q"; l_name := "Chris' Game"; l_created := 10;
       l_difficulty := 2 |} ∈ availableGames (games (state r)).
Proof.
  destruct (second_create_orphans_first boot 1
              "Chris" 2 d0 ["k3v9q"] 10 11 "k3v9q"
              "Jack" 1 d1 ["k3v9q"; "0ab"] 20 21 "0ab")
    as (H1 & H2 & _ & H4); [reflexivity | reflexivity | discriminate |].
  split_and!; [exact H1 | exact H2 | exact H4].
Defined.

(** ** Data and listing *)

(** X12. The data a joiner is sent is the data last stored: after an [M]
    that was accepted, whoever joins the same game next is sent that
    data with [PP]. *)
Theorem joiner_gets_last_data s socket gameData g joiner playerName :
  role (sock s socket) = Some slave →
  games s !! key (gameID (sock s socket)) = Some g →
  players_master g ≠ playerName →
  wire (handle joiner (JG (key (gameID (sock s socket))) playerName)
          (state (handle socket (M gameData) s))) =
  [(joiner, Ack ROk); (sockets_master g, GS); (joiner, PP gameData)].
Proof.
  intros Hr Hg Hn. rewrite (on_M_ok _ _ _ _ Hr Hg). cbn [state].
  rewrite (on_JG_ok _ _ _ _ (with_data g gameData));
    [reflexivity | apply lookup_insert_eq | done].
Qed.

Lemma joiner_gets_last_data_witness :
  wire (handle 3 (JG "k3v9q" "Eve") (state (handle 2 (M d1) ex_joined))) =
  [(3, Ack ROk); (1, GS); (3, PP d1)].
Proof.
  apply (joiner_gets_last_data ex_joined 2 d1
           {| name := "Chris' Game"; difficulty := 2;
              players_master := "Chris"; players_slave := Some "Bob";
              created := 10; data := d0;
              sockets_master := 1; sockets_slave := Some 2 |} 3 "Eve");
    [reflexivity | reflexivity | discriminate].
Defined.

Lemma ids_omap_sublist (l : list (string * Game)) :
  sublist (id <$> omap available l) (l.*1).
Proof.
  induction l as [|[code g] l IH]; simpl; [constructor |].
  destruct (players_slave g); simpl;
    [by apply sublist_cons | by apply sublist_skip].
Qed.

(** X13. [LG] lists a game at most once: the ids of the answer are
    pairwise distinct, and there are no more entries than games. *)
Theorem listing_has_no_duplicates (gs : gmap string Game) :
  NoDup (id <$> availableGames gs)
  ∧ (length (availableGames gs) ≤ size gs)%nat.
Proof.
  unfold availableGames. split.
  - apply (sublist_NoDup _ ((map_to_list gs).*1));
      [apply NoDup_fst_map_to_list | apply ids_omap_sublist].
  - rewrite <- length_map_to_list.
    rewrite <- (length_fmap id (omap available (map_to_list gs))).
    rewrite <- (length_fmap fst (map_to_list gs)).
    apply sublist_length, ids_omap_sublist.
Qed.

(** ** Sockets that are still connected *)

Lemma sock_sockets gs s x :
  sock {| games := gs; sockets := sockets s |} x = sock s x.
Proof. reflexivity. Qed.

Lemma effect_master_bound s socket e s' (gone : gset SockId) :
  (∀ x, x ∉ gone → master_bound s x) →
  socket ∉ gone →
  effect s socket e s' →
  ∀ x, x ∉ (if is_disconnect e then {[socket]} ∪ gone else gone) →
       master_bound s' x.
Proof.
  intros Hs Hsocket He x Hx. destruct He.
  - apply Hs. destruct (is_disconnect e); set_solver.
  - intros Hrole. rewrite sock_insert in Hrole |- *.
    case_decide as Hsx.
    + subst x. eexists code, _.
      split_and!; [done | simpl; apply lookup_insert_eq | done].
    + destruct (Hs x Hx Hrole) as (c & g & Hid & Hg & Hm).
      exists c, g. split_and!; [done | | done].
      simpl. rewrite lookup_insert_ne; [done | congruence].
  - intros Hrole. rewrite sock_insert in Hrole |- *.
    case_decide as Hsx; [discriminate |].
    destruct (Hs x Hx Hrole) as (c & g' & Hid & Hg & Hm).
    destruct (decide (gameID0 = c)) as [->|Hc].
    + exists c, (with_slave g playerName socket).
      split_and!; [done | simpl; apply lookup_insert_eq |].
      simpl. congruence.
    + exists c, g'. split_and!; [done | | done].
      simpl. by rewrite lookup_insert_ne.
  - intros Hrole. rewrite sock_sockets in Hrole |- *.
    destruct (Hs x Hx Hrole) as (c & g' & Hid & Hg & Hm).
    destruct (decide (key (gameID (sock s socket)) = c)) as [Hc|Hc].
    + exists c, (with_data g gameData).
      split_and!; [done | simpl; rewrite Hc; apply lookup_insert_eq |].
      simpl. congruence.
    + exists c, g'. split_and!; [done | | done].
      simpl. by rewrite lookup_insert_ne.
  - intros Hrole. rewrite sock_sockets in Hrole |- *.
    destruct (Hs x Hx Hrole) as (c & g' & Hid & Hg & Hm).
    destruct (decide (key (gameID (sock s socket)) = c)) as [Hc|Hc].
    + exists c, (with_data g gameData).
      split_and!; [done | simpl; rewrite Hc; apply lookup_insert_eq |].
      simpl. congruence.
    + exists c, g'. split_and!; [done | | done].
      simpl. by rewrite lookup_insert_ne.
  - simpl in Hx.
    assert (x ≠ socket) as Hne by set_solver.
    assert (x ∉ gone) as Hxg by set_solver.
    intros Hrole.
    assert (role (sock s x) = Some master
            ∧ (∀ o, opponent_of (role (sock s socket)) g = Some o → o ≠ x)
            ∧ sock {| games := delete (key (gameID (sock s socket))) (games s);
                      sockets :=
                        match opponent_of (role (sock s socket)) g with
                        | Some opponent => <[opponent := connected]> (sockets s)
                        | None => sockets s
                        end |} x = sock s x) as (Hrole' & Hopp & Hsame).
    { destruct (opponent_of (role (sock s socket)) g) as [o|].
      - rewrite sock_insert in Hrole |- *.
        case_decide as Hox; [discriminate |].
        split_and!; [done | | done]. by intros ? [= <-].
      - by split_and!. }
    rewrite Hsame.
    destruct (Hs x Hxg Hrole') as (c & g' & Hid & Hg & Hm).
    exists c, g'. split_and!; [done | | done].
    simpl. rewrite lookup_delete_ne; [done |].
    intros Hc. rewrite Hc in H0. rewrite Hg in H0. injection H0 as ->.
    unfold opponent_of in Hopp. case_decide as Hmaster.
    + destruct (Hs socket Hsocket Hmaster) as (c' & g'' & Hid' & Hg' & Hm').
      rewrite Hid' in Hc. simpl in Hc. subst c'.
      rewrite Hg in Hg'. injection Hg' as <-. congruence.
    + by apply (Hopp (sockets_master g)).
Qed.

Lemma live_master_bound s gone :
  live s gone → ∀ x, x ∉ gone → master_bound s x.
Proof.
  induction 1 as [|s gone socket e _ IH Hsocket].
  - intros x _ Hrole. discriminate.
  - eapply effect_master_bound; [exact IH | exact Hsocket |].
    apply handle_effect.
Qed.

(** X14. A socket that is still connected and whose role is master holds
    the code of a registered game whose master socket it is; so its [ET]
    always finds the game, stores the data and answers ok (it raises
    afterwards only if the game has no slave socket). *)
Theorem connected_master_has_game s gone socket :
  live s gone → socket ∉ gone →
  role (sock s socket) = Some master →
  ∃ code g,
    gameID (sock s socket) = Some code
    ∧ games s !! code = Some g
    ∧ sockets_master g = socket
    ∧ ∀ gameData,
        (socket, Ack ROk) ∈ wire (handle socket (ET gameData) s)
        ∧ games (state (handle socket (ET gameData) s)) !! code =
          Some (with_data g gameData).
Proof.
  intros Hl Hs Hr.
  destruct (live_master_bound s gone Hl socket Hs Hr)
    as (code & g & Hid & Hg & Hm).
  exists code, g. split_and!; [done.. |]. intros gameData.
  assert (key (gameID (sock s socket)) = code) as Hk by by rewrite Hid.
  rewrite <- Hk in Hg |- *.
  destruct (sockets_slave g) as [joiner|] eqn:Hj.
  - rewrite (on_ET_ok _ _ _ _ _ Hr Hg Hj). simpl.
    split; [apply list_elem_of_here | apply lookup_insert_eq].
  - rewrite (on_ET_throws_no_joiner _ _ _ _ Hr Hg Hj). simpl.
    split; [apply list_elem_of_here | apply lookup_insert_eq].
Qed.

Lemma connected_master_has_game_witness :
  ∃ code g,
    gameID (sock ex_joined 1) = Some code
    ∧ games ex_joined !! code = Some g
    ∧ sockets_master g = 1.
Proof.
  destruct (connected_master_has_game ex_joined ∅ 1)
    as (code & g & H1 & H2 & H3 & _).
  - exact (live_step _ ∅ 2 (JG "k3v9q" "Bob")
             (live_step boot ∅ 1 (CG "Chris" 2 d0 ["k3v9q"] 10 11)
                live_boot (not_elem_of_empty 1))
             (not_elem_of_empty 2)).
  - apply not_elem_of_empty.
  - reflexivity.
  - by exists code, g.
Defined.

(** ** A whole game *)

Lemma run_returned socket e tr s s1 o1 s2 o2 :
  handle socket e s = Returned tt s1 o1 →
  run tr s1 = Returned tt s2 o2 →
  run ((socket, e) :: tr) s = Returned tt s2 (o1 ++ o2).
Proof. intros H1 H2. by rewrite run_cons, H1, H2. Qed.

(** X15. A game from creation to the end, for any two sockets, any two
    different names, any data and any non-empty code: the creator is told
    the code, the joiner is answered ok, the creator is sent [GS] and the
    joiner [PP] with the initial data; the joiner's [M] is answered ok
    and its data sent to the creator; the creator's [ET] is answered ok
    and its data sent to the joiner; the creator's [disconnect] sends the
    joiner [EG], resets it, and leaves no game registered. *)
Theorem whole_game (a b : SockId) (X Y : string) difficulty
    (D0 D1 D2 : GameData) code rest now now' :
  a ≠ b → X ≠ Y → code ≠ EmptyString →
  let r := run [(a, CG X difficulty D0 (code :: rest) now now');
                (b, JG code Y); (b, M D1); (a, ET D2); (a, disconnect)] boot
  in
  returns r = true
  ∧ wire r = [(a, Ack (RGame {| id := code; l_name := gameName X;
                                l_created := now';
                                l_difficulty := difficulty |}));
              (b, Ack ROk); (a, GS); (b, PP D0);
              (b, Ack ROk); (a, PP D1);
              (a, Ack ROk); (b, PP D2);
              (b, EG)]
  ∧ games (state r) = ∅
  ∧ sock (state r) b = connected.
Proof.
  intros Hab HXY Hcode r.
  set (g0 := {| name := gameName X; difficulty := difficulty;
                players_master := X; players_slave := None;
                created := now; data := D0;
                sockets_master := a; sockets_slave := None |}).
  set (ta := <[a := {| gameID := Some code; role := Some master |}]>
               (∅ : gmap SockId Socket)).
  set (tb := <[b := {| gameID := Some code; role := Some slave |}]> ta).
  set (s1 := {| games := <[code := g0]> ∅; sockets := ta |}).
  set (s2 := {| games := <[code := with_slave g0 Y b]> (games s1);
                sockets := tb |}).
  set (s3 := {| games := <[code := with_data (with_slave g0 Y b) D1]>
                           (games s2);
                sockets := tb |}).
  set (s4 := {| games :=
                  <[code := with_data (with_data (with_slave g0 Y b) D1) D2]>
                    (games s3);
                sockets := tb |}).
  set (s5 := {| games := delete code (games s4);
                sockets := <[b := connected]> tb |}).
  assert (∀ gs, sock {| games := gs; sockets := tb |} b =
                {| gameID := Some code; role := Some slave |}) as Hb.
  { intros gs. unfold tb. rewrite sock_insert. by rewrite decide_True. }
  assert (∀ gs, sock {| games := gs; sockets := tb |} a =
                {| gameID := Some code; role := Some master |}) as Ha.
  { intros gs. unfold tb, ta. rewrite sock_insert.
    rewrite decide_False by done. by rewrite lookup_insert_eq. }
  assert (handle a (CG X difficulty D0 (code :: rest) now now') boot =
          Returned tt s1
            [(a, Ack (RGame {| id := code; l_name := gameName X;
                               l_created := now';
                               l_difficulty := difficulty |}))]) as H1.
  { apply on_CG_returns. simpl. rewrite decide_False; [done |].
    rewrite lookup_empty. by intros [? ?]. }
  assert (handle b (JG code Y) s1 =
          Returned tt s2 [(b, Ack ROk); (a, GS); (b, PP D0)]) as H2.
  { apply (on_JG_ok s1 b code Y g0); [apply lookup_insert_eq | done]. }
  assert (handle b (M D1) s2 =
          Returned tt s3 [(b, Ack ROk); (a, PP D1)]) as H3.
  { pose proof (on_M_ok s2 b D1 (with_slave g0 Y b)) as H.
    rewrite (Hb (games s2) : sock s2 b = _) in H.
    apply H; [done | apply lookup_insert_eq]. }
  assert (handle a (ET D2) s3 =
          Returned tt s4 [(a, Ack ROk); (b, PP D2)]) as H4.
  { pose proof (on_ET_ok s3 a D2 (with_data (with_slave g0 Y b) D1) b) as H.
    rewrite (Ha (games s3) : sock s3 a = _) in H.
    apply H; [done | apply lookup_insert_eq | done]. }
  assert (handle a disconnect s4 = Returned tt s5 [(b, EG)]) as H5.
  { pose proof (on_disconnect_opponent s4 a
                  (with_data (with_data (with_slave g0 Y b) D1) D2) b) as H.
    rewrite (Ha (games s4) : sock s4 a = _) in H.
    apply H; [by apply bool_decide_eq_false | apply lookup_insert_eq | done]. }
  assert (r = Returned tt s5
                [(a, Ack (RGame {| id := code; l_name := gameName X;
                                   l_created := now';
                                   l_difficulty := difficulty |}));
                 (b, Ack ROk); (a, GS); (b, PP D0);
                 (b, Ack ROk); (a, PP D1);
                 (a, Ack ROk); (b, PP D2);
                 (b, EG)]) as Hr.
  { subst r.
    rewrite (run_returned _ _ _ _ _ _ _ _ H1
               (run_returned _ _ _ _ _ _ _ _ H2
                  (run_returned _ _ _ _ _ _ _ _ H3
                     (run_returned _ _ _ _ _ _ _ _ H4
                        (run_returned _ _ [] _ _ _ _ _ H5 eq_refl))))).
    reflexivity. }
  rewrite Hr. simpl. split_and!; [done | done | |].
  - apply map_eq. intros k. rewrite lookup_empty.
    destruct (decide (code = k)) as [->|Hk].
    + apply lookup_delete_eq.
    + rewrite lookup_delete_ne by done.
      repeat rewrite lookup_insert_ne by done. apply lookup_empty.
  - unfold sock. simpl. by rewrite lookup_insert_eq.
Qed.

Lemma whole_game_witness :
  let r := run [(1, CG "Chris" 2 d0 ["k3v9q"] 10 11);
                (2, JG "k3v9q" "Bob"); (2, M d1); (1, ET d0);
                (1, disconnect)] boot in
  returns r = true ∧ games (state r) = ∅ ∧ sock (state r) 2 = connected.
Proof.
  destruct (whole_game 1 2 "Chris" "Bob" 2 d0 d1 d0 "k3v9q" [] 10 11)
    as (H1 & _ & H3 & H4); [discriminate.. |].
  split_and!; [exact H1 | exact H3 | exact H4].
Defined.

(** ** Two joiners *)

(** X16. After a second socket has joined a game, both joiners keep the
    role slave for it: the [M] of the first is still accepted and sent to
    the master, as is the [M] of the second, while the master's [ET]
    reaches the second joiner only. *)
Theorem both_joiners_can_move s code g first second playerName gameData :
  games s !! code = Some g →
  sock s first = {| gameID := Some code; role := Some slave |} →
  sock s (sockets_master g) = {| gameID := Some code; role := Some master |} →
  second ≠ first → second ≠ sockets_master g →
  players_master g ≠ playerName →
  let s' := state (handle second (JG code playerName) s) in
  wire (handle first (M gameData) s') =
    [(first, Ack ROk); (sockets_master g, PP gameData)]
  ∧ wire (handle second (M gameData) s') =
    [(second, Ack ROk); (sockets_master g, PP gameData)]
  ∧ wire (handle (sockets_master g) (ET gameData) s') =
    [(sockets_master g, Ack ROk); (second, PP gameData)].
Proof.
  intros Hg Hfirst Hmaster Hsf Hsm Hn s'. subst s'.
  rewrite (on_JG_ok _ _ _ _ _ Hg Hn). cbn [state].
  match goal with |- context [handle _ _ ?st] => set (s' := st) end.
  assert (games s' !! code = Some (with_slave g playerName second)) as Hg'
    by apply lookup_insert_eq.
  assert (sock s' first = {| gameID := Some code; role := Some slave |})
    as Hf.
  { unfold s'. rewrite sock_insert. by rewrite decide_False by done. }
  assert (sock s' second = {| gameID := Some code; role := Some slave |})
    as Hs.
  { unfold s'. rewrite sock_insert. by rewrite decide_True. }
  assert (sock s' (sockets_master g) =
          {| gameID := Some code; role := Some master |}) as Hm.
  { unfold s'. rewrite sock_insert. by rewrite decide_False by done. }
  split_and!.
  - pose proof (on_M_ok s' first gameData
                  (with_slave g playerName second)) as H.
    rewrite Hf in H. rewrite H; done.
  - pose proof (on_M_ok s' second gameData
                  (with_slave g playerName second)) as H.
    rewrite Hs in H. rewrite H; done.
  - pose proof (on_ET_ok s' (sockets_master g) gameData
                  (with_slave g playerName second) second) as H.
    rewrite Hm in H. rewrite H; done.
Qed.

Lemma both_joiners_can_move_witness :
  let s' := state (handle 3 (JG "k3v9q" "Eve") ex_joined) in
  wire (handle 2 (M d1) s') = [(2, Ack ROk); (1, PP d1)]
  ∧ wire (handle 3 (M d1) s') = [(3, Ack ROk); (1, PP d1)]
  ∧ wire (handle 1 (ET d1) s') = [(1, Ack ROk); (3, PP d1)].
Proof.
  apply (both_joiners_can_move ex_joined "k3v9q"
           {| name := "Chris' Game"; difficulty := 2;
              players_master := "Chris"; players_slave := Some "Bob";
              created := 10; data := d0;
              sockets_master := 1; sockets_slave := Some 2 |}
           2 3 "Eve" d1);
    [reflexivity | reflexivity | reflexivity | discriminate | discriminate |
     discriminate].
Defined.
